(** * Access-filtered schema cache (pkg/schema/factory.go)

    A shallow embedding of the schema factory of the [schema] package:
    the start-up parsing of the cache timeout, the three cache indexes
    kept by [Collection.Schemas], the filtering of the base catalog by
    an access set in [Collection.schemasForSubject], and the merging of
    templates in [Collection.applyTemplates].

    Pointers to shared schemas are modelled by an explicit store (the
    list [Collection.schemas] is threaded through every call that can
    write to it); Go errors are the left summand of a sum type; a nil
    interface, function or pointer value is [None]. *)

From Stdlib Require Import ZArith String Ascii List Bool Lia.
From stdpp Require Import base option list gmap strings fin_maps.

(** ** Collaborating packages *)

(** *** [k8s.io/apimachinery] group/resource pairs *)
Module schema_k8s.
Record GroupResource := { Group : string; Resource : string }.
End schema_k8s.

(** *** Package [accesscontrol] *)
Module accesscontrol.

(** [accesscontrol.All]: the cluster-wide scope marker. *)
Definition All : string := "*".

Record Access := { Namespace : string; ResourceName : string }.

#[global] Instance Access_eq_dec : EqDecision Access.
Proof. solve_decision. Defined.

(** Modelled from the spec: [AccessListByVerb.AnyVerb] lives in package
    accesscontrol, outside factory.go; the spec's table reads "any grant
    for" one of the listed verbs, that is, some listed verb maps to a
    grant list that is not empty. *)
Definition AnyVerb (a : gmap string (list Access)) (verb : list string) : bool :=
  existsb (fun v => match a !! v with
                    | Some l => negb (Nat.eqb (length l) 0)
                    | None => false
                    end) verb.

End accesscontrol.

(** Modelled from the spec: the access decision set is an opaque value
    produced by the access-control engine, with "a stable identity
    string and a query capability": grants by verb and group/resource,
    and the enumeration of visible namespaces.  The two queries are
    fields of the record. *)
Module AccessSet.
Record t := {
  ID : string;
  AccessListFor : string -> schema_k8s.GroupResource -> list accesscontrol.Access;
  Namespaces : list string
}.
End AccessSet.

(** *** Package [types] of the API server *)
Module types.

(** A formatter is a Go function value; [FormatterChain formatter next]
    is the value [types.FormatterChain(formatter, next)] builds. *)
Inductive Formatter :=
| FormatterFunc (name : string)
| FormatterChain (formatter next : Formatter).

(** Stores are opaque capability objects; a store factory may wrap the
    default store it receives. *)
Inductive Store :=
| StoreHandle (name : string)
| StoreOver (name : string) (inner : Store).

End types.

(** Modelled from the spec: the accessors of package attributes
    ([GR], [Group], [Kind], [Verbs], [Namespaced], [DisallowMethods],
    [SetAccess]) are outside factory.go; the spec lists what a resource
    schema definition carries: "group, resource, namespace-scoped flag,
    supported verbs, block-list of disallowed operations", and the
    access attribute attached by the filter.  Each attribute is a field
    of the schema record. *)
Module APISchema.
Record t := {
  ID : string;
  Group : string;
  Resource : string;
  Kind : string;
  Verbs : list string;
  Namespaced : bool;
  DisallowMethods : gmap string bool;
  Access : option (gmap string (list accesscontrol.Access));
  ResourceMethods : list string;
  CollectionMethods : list string;
  Formatter : option types.Formatter;
  Store : option types.Store
}.

Definition with_ResourceMethods (s : t) (m : list string) : t :=
  {| ID := ID s; Group := Group s; Resource := Resource s; Kind := Kind s;
     Verbs := Verbs s; Namespaced := Namespaced s;
     DisallowMethods := DisallowMethods s; Access := Access s;
     ResourceMethods := m; CollectionMethods := CollectionMethods s;
     Formatter := Formatter s; Store := Store s |}.

Definition with_CollectionMethods (s : t) (m : list string) : t :=
  {| ID := ID s; Group := Group s; Resource := Resource s; Kind := Kind s;
     Verbs := Verbs s; Namespaced := Namespaced s;
     DisallowMethods := DisallowMethods s; Access := Access s;
     ResourceMethods := ResourceMethods s; CollectionMethods := m;
     Formatter := Formatter s; Store := Store s |}.

Definition with_Formatter (s : t) (f : option types.Formatter) : t :=
  {| ID := ID s; Group := Group s; Resource := Resource s; Kind := Kind s;
     Verbs := Verbs s; Namespaced := Namespaced s;
     DisallowMethods := DisallowMethods s; Access := Access s;
     ResourceMethods := ResourceMethods s;
     CollectionMethods := CollectionMethods s;
     Formatter := f; Store := Store s |}.

Definition with_Store (s : t) (st : option types.Store) : t :=
  {| ID := ID s; Group := Group s; Resource := Resource s; Kind := Kind s;
     Verbs := Verbs s; Namespaced := Namespaced s;
     DisallowMethods := DisallowMethods s; Access := Access s;
     ResourceMethods := ResourceMethods s;
     CollectionMethods := CollectionMethods s;
     Formatter := Formatter s; Store := st |}.

(** [s.DeepCopy()]: schemas are values here, so the clone is the value
    itself; what matters is which store cell later writes go to. *)
Definition DeepCopy (s : t) : t := s.

End APISchema.

Module attributes.

Definition GR (s : APISchema.t) : schema_k8s.GroupResource :=
  {| schema_k8s.Group := APISchema.Group s;
     schema_k8s.Resource := APISchema.Resource s |}.

(** [attributes.DisallowMethods(s)[method]]: a missing key reads false. *)
Definition disallowed (s : APISchema.t) (method : string) : bool :=
  default false (APISchema.DisallowMethods s !! method).

Definition SetAccess (s : APISchema.t)
    (verbAccess : gmap string (list accesscontrol.Access)) : APISchema.t :=
  {| APISchema.ID := APISchema.ID s; APISchema.Group := APISchema.Group s;
     APISchema.Resource := APISchema.Resource s;
     APISchema.Kind := APISchema.Kind s;
     APISchema.Verbs := APISchema.Verbs s;
     APISchema.Namespaced := APISchema.Namespaced s;
     APISchema.DisallowMethods := APISchema.DisallowMethods s;
     APISchema.Access := Some verbAccess;
     APISchema.ResourceMethods := APISchema.ResourceMethods s;
     APISchema.CollectionMethods := APISchema.CollectionMethods s;
     APISchema.Formatter := APISchema.Formatter s;
     APISchema.Store := APISchema.Store s |}.

End attributes.

(** A schema catalog: the schemas by identity and the attribute that
    holds the access set the catalog was computed for. *)
Module APISchemas.
Record t := {
  Schemas : gmap string APISchema.t;
  Attributes : option AccessSet.t
}.

Definition EmptyAPISchemas : t := {| Schemas := ∅; Attributes := None |}.
End APISchemas.

(** [net/http] method names. *)
Definition MethodGet : string := "GET".
Definition MethodPost : string := "POST".
Definition MethodPut : string := "PUT".
Definition MethodPatch : string := "PATCH".
Definition MethodDelete : string := "DELETE".

Definition error := string.

(** ** Filtering the base catalog: [schemasForSubject] *)

Section Filter.

(** The catalog of built-in schemas ([builtin.Schemas]) and the check
    by which the API server's catalog refuses a schema
    ([APISchemas.AddSchema] returning an error) belong to the API server
    library; both are parameters of the development. *)
Variable builtin_Schemas : APISchemas.t.
Variable schemaError : APISchemas.t -> APISchema.t -> option error.

Definition AddSchema (a : APISchemas.t) (schema : APISchema.t)
    : error + APISchemas.t :=
  match schemaError a schema with
  | Some err => inl err
  | None =>
      inr {| APISchemas.Schemas :=
               <[APISchema.ID schema := schema]> (APISchemas.Schemas a);
             APISchemas.Attributes := APISchemas.Attributes a |}
  end.

Fixpoint addSchemaList (a : APISchemas.t) (l : list (string * APISchema.t))
    : error + APISchemas.t :=
  match l with
  | [] => inr a
  | (_, schema) :: l =>
      match AddSchema a schema with
      | inl err => inl err
      | inr a => addSchemaList a l
      end
  end.

(** [a.AddSchemas(schema)]: every schema of [schema.Schemas] is added,
    stopping at the first error. *)
Definition AddSchemas (a schema : APISchemas.t) : error + APISchemas.t :=
  addSchemaList a (map_to_list (APISchemas.Schemas schema)).

Definition newSchemas : error + APISchemas.t :=
  AddSchemas APISchemas.EmptyAPISchemas builtin_Schemas.

(** Lines 123-129: the grants kept for a schema that is not namespaced. *)
Definition trim (a : list accesscontrol.Access) : list accesscontrol.Access :=
  foldl (fun result access =>
           if decide (accesscontrol.Namespace access = accesscontrol.All)
           then result ++ [access] else result) [] a.

(** Lines 119-134: one turn of the loop over the verbs. *)
Definition verbAccessStep (access : AccessSet.t) (s : APISchema.t)
    (gr : schema_k8s.GroupResource)
    (verbAccess : gmap string (list accesscontrol.Access)) (verb : string)
    : gmap string (list accesscontrol.Access) :=
  let a := AccessSet.AccessListFor access verb gr in
  let a := if APISchema.Namespaced s then a else trim a in
  if (0 <? length a)%nat then <[verb := a]> verbAccess else verbAccess.

Definition verbAccessOf (access : AccessSet.t) (s : APISchema.t)
    : gmap string (list accesscontrol.Access) :=
  foldl (verbAccessStep access s (attributes.GR s)) ∅ (APISchema.Verbs s).

(** Lines 138-144: one grant per visible namespace. *)
Definition namespaceAccessList (access : AccessSet.t)
    : list accesscontrol.Access :=
  foldl (fun accessList ns =>
           accessList ++ [{| accesscontrol.Namespace := accesscontrol.All;
                             accesscontrol.ResourceName := ns |}])
        [] (AccessSet.Namespaces access).

(** Lines 136-152.  The schema [s] is the one in the shared catalog: the
    write of line 149 goes to it.  The result is that schema after the
    block, and the map [verbAccess] after the block. *)
Definition namespacesFallback (access : AccessSet.t) (s : APISchema.t)
    (verbAccess : gmap string (list accesscontrol.Access))
    : APISchema.t * gmap string (list accesscontrol.Access) :=
  if decide (size verbAccess = 0) then
    if decide (APISchema.Group s = "" ∧ APISchema.Resource s = "namespaces")
    then
      let accessList := namespaceAccessList access in
      let verbAccess := <["get" := accessList]> verbAccess in
      let verbAccess := <["watch" := accessList]> verbAccess in
      if decide (length accessList = 0) then
        (APISchema.with_CollectionMethods s
           (APISchema.CollectionMethods s ++ [MethodGet]), verbAccess)
      else (s, verbAccess)
    else (s, verbAccess)
  else (s, verbAccess).

(** Lines 154-159. *)
Definition allowed (s : APISchema.t) (method : string) : string :=
  if attributes.disallowed s method then "blocked-" +:+ method else method.

(** Lines 161-176: the clone with the access map and the derived
    operations. *)
Definition derive (s : APISchema.t)
    (verbAccess : gmap string (list accesscontrol.Access)) : APISchema.t :=
  let s := APISchema.DeepCopy s in
  let s := attributes.SetAccess s verbAccess in
  let s :=
    if accesscontrol.AnyVerb verbAccess ["list"; "get"] then
      let s := APISchema.with_ResourceMethods s
                 (APISchema.ResourceMethods s ++ [allowed s MethodGet]) in
      APISchema.with_CollectionMethods s
        (APISchema.CollectionMethods s ++ [allowed s MethodGet])
    else s in
  let s :=
    if accesscontrol.AnyVerb verbAccess ["delete"] then
      APISchema.with_ResourceMethods s
        (APISchema.ResourceMethods s ++ [allowed s MethodDelete])
    else s in
  let s :=
    if accesscontrol.AnyVerb verbAccess ["update"] then
      let s := APISchema.with_ResourceMethods s
                 (APISchema.ResourceMethods s ++ [allowed s MethodPut]) in
      APISchema.with_ResourceMethods s
        (APISchema.ResourceMethods s ++ [allowed s MethodPatch])
    else s in
  if accesscontrol.AnyVerb verbAccess ["create"] then
    APISchema.with_CollectionMethods s
      (APISchema.CollectionMethods s ++ [allowed s MethodPost])
  else s.

(** Lines 116-176, for a schema with a resource: the schema as the loop
    body leaves it in the shared catalog, and the clone it builds. *)
Definition filterSchema (access : AccessSet.t) (s : APISchema.t)
    : APISchema.t * APISchema.t :=
  let verbAccess := verbAccessOf access s in
  let '(s, verbAccess) := namespacesFallback access s verbAccess in
  (s, derive s verbAccess).

(** Line 178. *)
Definition noMethods (s : APISchema.t) : bool :=
  Nat.eqb (length (APISchema.CollectionMethods s)) 0
  && Nat.eqb (length (APISchema.ResourceMethods s)) 0.

(** Lines 106-185: the loop over [c.schemas].  The first component is
    the shared catalog as the loop leaves it (also when it stops at an
    error), the second the error or the result catalog. *)
Fixpoint filterSchemas (access : AccessSet.t) (schemas : list APISchema.t)
    (result : APISchemas.t) : list APISchema.t * (error + APISchemas.t) :=
  match schemas with
  | [] => ([], inr result)
  | s :: rest =>
      if decide (APISchema.Resource s = "") then
        match AddSchema result s with
        | inl err => (s :: rest, inl err)
        | inr result =>
            let '(rest, r) := filterSchemas access rest result in
            (s :: rest, r)
        end
      else
        let '(s, clone) := filterSchema access s in
        if noMethods clone then
          let '(rest, r) := filterSchemas access rest result in
          (s :: rest, r)
        else
          match AddSchema result clone with
          | inl err => (s :: rest, inl err)
          | inr result =>
              let '(rest, r) := filterSchemas access rest result in
              (s :: rest, r)
          end
  end.

(** [schemasForSubject], lines 93-191, on the two fields of the
    collection it reads: [c.baseSchema] and [c.schemas]. *)
Definition schemasForSubject (baseSchema : APISchemas.t)
    (schemas : list APISchema.t) (access : AccessSet.t)
    : list APISchema.t * (error + APISchemas.t) :=
  match newSchemas with
  | inl err => (schemas, inl err)
  | inr result =>
      match AddSchemas result baseSchema with
      | inl err => (schemas, inl err)
      | inr result =>
          match filterSchemas access schemas result with
          | (schemas, inl err) => (schemas, inl err)
          | (schemas, inr result) =>
              (schemas,
               inr {| APISchemas.Schemas := APISchemas.Schemas result;
                      APISchemas.Attributes := Some access |})
          end
      end
  end.

End Filter.

(** ** Start-up configuration: [CacheTimeout] and [init] *)

(** Go's [int] and [time.Duration] on a 64-bit platform. *)
Definition minInt64 : Z := - 2 ^ 63.
Definition maxInt64 : Z := 2 ^ 63 - 1.

(** The value a signed 64-bit multiplication or addition leaves. *)
Definition wrap64 (z : Z) : Z := ((z + 2 ^ 63) mod 2 ^ 64 - 2 ^ 63)%Z.

(** [time.Hour], in nanoseconds. *)
Definition Hour : Z := 3600000000000.

(** [strconv.Atoi] of the Go standard library: an optional sign, then
    one or more decimal digits, and a value that fits [int]; anything
    else is an error (its kind, syntax or range, is not distinguished). *)
Definition digit (a : ascii) : option Z :=
  let n := Z.of_N (N_of_ascii a) in
  if ((48 <=? n) && (n <=? 57))%Z then Some (n - 48)%Z else None.

Fixpoint digits (acc : Z) (s : string) : option Z :=
  match s with
  | EmptyString => Some acc
  | String a s =>
      match digit a with
      | Some d => digits (10 * acc + d)%Z s
      | None => None
      end
  end.

Definition Atoi (s : string) : error + Z :=
  let failure := inl ("strconv.Atoi: parsing " +:+ s) in
  let '(neg, body) :=
    match s with
    | String "-" r => (true, r)
    | String "+" r => (false, r)
    | _ => (false, s)
    end in
  match body with
  | EmptyString => failure
  | _ =>
      match digits 0 body with
      | None => failure
      | Some n =>
          let v := if neg then (- n)%Z else n in
          if ((minInt64 <=? v) && (v <=? maxInt64))%Z then inr v else failure
      end
  end.

(** Line 18: [time.Duration(3 * 30 * 24)]. *)
Definition defaultCacheTimeout : Z := 3 * 30 * 24.

(** [init], lines 20-30, as a function of the value [os.Getenv] returns
    for CATTLE_CACHE_TIMEOUT (the empty string when it is not set): the
    value of [CacheTimeout] after [init], and the lines logged. *)
Definition init (cacheTimeout : string) : Z * list string :=
  if decide (cacheTimeout ≠ "") then
    match Atoi cacheTimeout with
    | inl err =>
        (defaultCacheTimeout,
         ["CATTLE_CACHE_TIMEOUT string to int error: " +:+ err])
    | inr num => (num, [])
    end
  else (defaultCacheTimeout, []).

(** [CacheTimeout * time.Hour], a product of two [time.Duration]s. *)
Definition ttl (CacheTimeout : Z) : Z := wrap64 (CacheTimeout * Hour).

(** ** The expiring caches *)

(** Modelled from the spec: the type of [c.cache] and [c.userCache] is
    declared outside factory.go.  The spec gives its behaviour: "each
    record is assigned a fixed time-to-live", "expiry is absolute from
    creation, not sliding", and "eviction by TTL is eventual (lazy, on
    next access or background reaper)".  A cache maps a key to a value
    and the instant it expires; time is in nanoseconds. *)
Module expirecache.
Section ExpireCache.
Context {V : Type}.

Definition live (now : Z) (entry : V * Z) : bool := (now <=? entry.2)%Z.

Definition Get (now : Z) (key : string) (c : gmap string (V * Z))
    : gmap string (V * Z) * option V :=
  match c !! key with
  | None => (c, None)
  | Some entry =>
      if live now entry then (c, Some entry.1) else (delete key c, None)
  end.

Definition Add (now : Z) (key : string) (value : V) (ttl : Z)
    (c : gmap string (V * Z)) : gmap string (V * Z) :=
  <[key := (value, (now + ttl)%Z)]> c.

Definition Remove (key : string) (c : gmap string (V * Z))
    : gmap string (V * Z) := delete key c.

End ExpireCache.
End expirecache.

(** The value type of [c.userTimeoutCache]. *)
Record UserTimeoutCacheValue := { Timeout : Z; UserName : string }.

(** ** Templates *)

(** The fields of [Template] that factory.go reads.  A customization
    hook is a function on the schema it receives. *)
Module Template.
Record t := {
  Customize : option (APISchema.t -> APISchema.t);
  Formatter : option types.Formatter;
  Store : option types.Store;
  StoreFactory : option (option types.Store -> option types.Store)
}.
End Template.

(** ** The collection *)

(** The fields of [Collection] that factory.go uses, and [purged], the
    identities passed to [c.as.PurgeUserData], oldest first.  A template
    list holds pointers, which may be nil. *)
Record Collection := {
  baseSchema : APISchemas.t;
  schemas : list APISchema.t;
  templates : gmap string (list (option Template.t));
  cache : gmap string (APISchemas.t * Z);
  userCache : gmap string (string * Z);
  userTimeoutCache : gmap string UserTimeoutCacheValue;
  purged : list string
}.

Definition with_schemas (c : Collection) (x : list APISchema.t) : Collection :=
  {| baseSchema := baseSchema c; schemas := x; templates := templates c;
     cache := cache c; userCache := userCache c;
     userTimeoutCache := userTimeoutCache c; purged := purged c |}.

Definition with_cache (c : Collection) (x : gmap string (APISchemas.t * Z))
    : Collection :=
  {| baseSchema := baseSchema c; schemas := schemas c;
     templates := templates c; cache := x; userCache := userCache c;
     userTimeoutCache := userTimeoutCache c; purged := purged c |}.

Definition with_userCache (c : Collection) (x : gmap string (string * Z))
    : Collection :=
  {| baseSchema := baseSchema c; schemas := schemas c;
     templates := templates c; cache := cache c; userCache := x;
     userTimeoutCache := userTimeoutCache c; purged := purged c |}.

Definition with_userTimeoutCache (c : Collection)
    (x : gmap string UserTimeoutCacheValue) : Collection :=
  {| baseSchema := baseSchema c; schemas := schemas c;
     templates := templates c; cache := cache c; userCache := userCache c;
     userTimeoutCache := x; purged := purged c |}.

Definition with_purged (c : Collection) (x : list string) : Collection :=
  {| baseSchema := baseSchema c; schemas := schemas c;
     templates := templates c; cache := cache c; userCache := userCache c;
     userTimeoutCache := userTimeoutCache c; purged := x |}.

(** The clock readings of one call of [Schemas], in the order they are
    taken: inside [c.userCache.Get] (line 65), inside [c.cache.Get]
    (line 50), inside [c.cache.Add] (line 78), inside [c.userCache.Add]
    (line 79), and by [time.Now()] (line 81). *)
Record Clock := {
  userGetAt : Z;
  cacheGetAt : Z;
  cacheAddAt : Z;
  userAddAt : Z;
  timeNow : Z
}.

(** The readings of a clock that does not run backwards. *)
Definition ticking (k : Clock) : Prop :=
  (userGetAt k <= cacheGetAt k)%Z ∧ (cacheGetAt k <= cacheAddAt k)%Z
  ∧ (cacheAddAt k <= userAddAt k)%Z ∧ (userAddAt k <= timeNow k)%Z.

(** The readings of a call in which the clock does not advance. *)
Definition instant (now : Z) : Clock :=
  {| userGetAt := now; cacheGetAt := now; cacheAddAt := now;
     userAddAt := now; timeNow := now |}.

Section Cache.

Variable builtin_Schemas : APISchemas.t.
Variable schemaError : APISchemas.t -> APISchema.t -> option error.

(** The package variable [CacheTimeout], as [init] left it. *)
Variable CacheTimeout : Z.

(** [purgeUserRecords], lines 87-91. *)
Definition purgeUserRecords (id : string) (c : Collection) : Collection :=
  let c := with_cache c (expirecache.Remove id (cache c)) in
  let c := with_userTimeoutCache c (delete id (userTimeoutCache c)) in
  with_purged c (purged c ++ [id]).

(** [removeOldRecords], lines 64-75; [now] is the reading of the clock
    inside [c.userCache.Get]. *)
Definition removeOldRecords (now : Z) (access : AccessSet.t) (user : string)
    (c : Collection) : Collection :=
  let '(uc, current) := expirecache.Get now user (userCache c) in
  let c := with_userCache c uc in
  match current with
  | Some currentId =>
      if decide (currentId ≠ AccessSet.ID access) then
        let c := purgeUserRecords currentId c in
        with_userCache c (expirecache.Remove user (userCache c))
      else c
  | None => c
  end.

(** [addToCache], lines 77-84.  Each of the two caches reads the clock
    for itself when it adds, and [Timeout] comes from a third reading. *)
Definition addToCache (k : Clock) (access : AccessSet.t) (user : string)
    (schemas : APISchemas.t) (c : Collection) : Collection :=
  let c := with_cache c
             (expirecache.Add (cacheAddAt k) (AccessSet.ID access) schemas
                (ttl CacheTimeout) (cache c)) in
  let c := with_userCache c
             (expirecache.Add (userAddAt k) user (AccessSet.ID access)
                (ttl CacheTimeout) (userCache c)) in
  with_userTimeoutCache c
    (<[AccessSet.ID access :=
         {| Timeout := (timeNow k + ttl CacheTimeout)%Z; UserName := user |}]>
       (userTimeoutCache c)).

(** [Schemas], lines 41-62, with the clock readings [k]; [AccessFor]
    is the lookup [c.as.AccessFor] of the access-control engine during
    the call.  The debug logging does not change the collection. *)
Definition Schemas (AccessFor : string -> AccessSet.t) (k : Clock)
    (user : string) (c : Collection) : Collection * (error + APISchemas.t) :=
  let access := AccessFor user in
  let c := removeOldRecords (userGetAt k) access user c in
  let '(ca, val) :=
    expirecache.Get (cacheGetAt k) (AccessSet.ID access) (cache c) in
  let c := with_cache c ca in
  match val with
  | Some schemas => (c, inr schemas)
  | None =>
      match schemasForSubject builtin_Schemas schemaError
              (baseSchema c) (schemas c) access with
      | (base, inl err) => (with_schemas c base, inl err)
      | (base, inr schemas) =>
          (addToCache k access user schemas (with_schemas c base),
           inr schemas)
      end
  end.

End Cache.

(** ** Applying templates: [applyTemplates] *)

(** [defaultStore], lines 193-199; [None] is the panic of reading the
    [Store] field through a nil pointer. *)
Definition defaultStore (c : Collection) : option (option types.Store) :=
  match default [] (templates c !! "") with
  | [] => Some None
  | Some t :: _ => Some (Template.Store t)
  | None :: _ => None
  end.

(** Lines 213-230: the body of the inner loop, on the schema and the
    list of hooks invoked so far; [None] is a panic. *)
Definition applyTemplate (c : Collection)
    (st : APISchema.t * list (APISchema.t -> APISchema.t))
    (t : option Template.t)
    : option (APISchema.t * list (APISchema.t -> APISchema.t)) :=
  match t with
  | None => Some st
  | Some t =>
      let '(schema, invoked) := st in
      let schema :=
        match APISchema.Formatter schema with
        | None => APISchema.with_Formatter schema (Template.Formatter t)
        | Some f =>
            match Template.Formatter t with
            | Some tf =>
                APISchema.with_Formatter schema
                  (Some (types.FormatterChain tf f))
            | None => schema
            end
        end in
      schema ←
        match APISchema.Store schema with
        | None =>
            match Template.StoreFactory t with
            | None => Some (APISchema.with_Store schema (Template.Store t))
            | Some factory =>
                d ← defaultStore c;
                Some (APISchema.with_Store schema (factory d))
            end
        | Some _ => Some schema
        end;
      match Template.Customize t with
      | Some hook => Some (hook schema, invoked ++ [hook])
      | None => Some (schema, invoked)
      end
  end.

Fixpoint applyTemplateList (c : Collection)
    (st : APISchema.t * list (APISchema.t -> APISchema.t))
    (templates : list (option Template.t))
    : option (APISchema.t * list (APISchema.t -> APISchema.t)) :=
  match templates with
  | [] => Some st
  | t :: templates =>
      st ← applyTemplate c st t;
      applyTemplateList c st templates
  end.

(** The three template lists of lines 205-209. *)
Definition templatesFor (c : Collection) (schema : APISchema.t)
    : list (list (option Template.t)) :=
  [ default [] (templates c !! APISchema.ID schema);
    default [] (templates c !!
                  (APISchema.Group schema +:+ "/" +:+ APISchema.Kind schema));
    default [] (templates c !! "") ].

Fixpoint applyTemplateLists (c : Collection)
    (st : APISchema.t * list (APISchema.t -> APISchema.t))
    (templates : list (list (option Template.t)))
    : option (APISchema.t * list (APISchema.t -> APISchema.t)) :=
  match templates with
  | [] => Some st
  | l :: templates =>
      st ← applyTemplateList c st l;
      applyTemplateLists c st templates
  end.

(** [applyTemplates], lines 201-233: the schema after the call and the
    hooks invoked, in order. *)
Definition applyTemplates (c : Collection) (schema : APISchema.t)
    : option (APISchema.t * list (APISchema.t -> APISchema.t)) :=
  applyTemplateLists c (schema, []) (templatesFor c schema).

(** * Definitions used by the statements *)

(** The grants of the decision set on a verb of a schema that survive
    the trimming of lines 121-130. *)
Definition surviving (access : AccessSet.t) (s : APISchema.t)
    (verb : string) : list accesscontrol.Access :=
  let a := AccessSet.AccessListFor access verb (attributes.GR s) in
  if APISchema.Namespaced s then a else trim a.

(** A row of the table of section 4.2: the verbs that trigger it, and
    the resource-level and collection-level operations it yields. *)
Definition operationTable : list (list string * (list string * list string)) :=
  [ (["list"; "get"], ([MethodGet], [MethodGet]));
    (["delete"], ([MethodDelete], []));
    (["update"], ([MethodPut; MethodPatch], []));
    (["create"], ([], [MethodPost])) ].

(** "A blocked operation is still recorded as present but tagged". *)
Definition tag (block : gmap string bool) (op : string) : string :=
  if default false (block !! op) then "blocked-" +:+ op else op.

Definition tableResourceOps (va : gmap string (list accesscontrol.Access))
    (block : gmap string bool) : list string :=
  flat_map (fun row => if accesscontrol.AnyVerb va row.1
                       then map (tag block) row.2.1 else []) operationTable.

Definition tableCollectionOps (va : gmap string (list accesscontrol.Access))
    (block : gmap string bool) : list string :=
  flat_map (fun row => if accesscontrol.AnyVerb va row.1
                       then map (tag block) row.2.2 else []) operationTable.

(** Which schemas line 149 writes to, and what. *)
Definition alwaysListed (access : AccessSet.t) (s : APISchema.t) : Prop :=
  verbAccessOf access s = ∅
  ∧ (APISchema.Group s = "" ∧ APISchema.Resource s = "namespaces")
  ∧ AccessSet.Namespaces access = [].

#[global] Instance alwaysListed_dec access s :
  Decision (alwaysListed access s).
Proof. unfold alwaysListed. apply _. Defined.

(** What one turn of the loop may leave in a cell of the shared
    catalog: the schema it found there, or, in the always-allow-list
    case, that schema with one more collection-level GET. *)
Definition cellAfter (access : AccessSet.t) (s s' : APISchema.t) : Prop :=
  s' = s
  ∨ (APISchema.Resource s ≠ "" ∧ alwaysListed access s
     ∧ s' = APISchema.with_CollectionMethods s
              (APISchema.CollectionMethods s ++ [MethodGet])).

(** The method lists of the entry [id] of a computed catalog. *)
Definition methodsOf (r : error + APISchemas.t) (id : string)
    : option (list string * list string) :=
  match r with
  | inl _ => None
  | inr catalog =>
      (fun s => (APISchema.ResourceMethods s, APISchema.CollectionMethods s))
        <$> APISchemas.Schemas catalog !! id
  end.

(** What the claim says a template does to the formatter of a schema:
    "assigned if the schema has none, otherwise composed so the later
    template's formatter wraps the existing one". *)
Definition formatterStep (cur : option types.Formatter)
    (t : option Template.t) : option types.Formatter :=
  match t with
  | None => cur
  | Some t =>
      match cur, Template.Formatter t with
      | None, f => f
      | Some f, Some tf => Some (types.FormatterChain tf f)
      | Some f, None => Some f
      end
  end.

(** What a template supplies as a store: its own, or what its factory
    makes of the default store [d]. *)
Definition supplied (d : option types.Store) (t : Template.t)
    : option types.Store :=
  match Template.StoreFactory t with
  | None => Template.Store t
  | Some factory => factory d
  end.

(** "A store is assigned only by the first template that supplies
    one". *)
Definition storeStep (d : option types.Store) (cur : option types.Store)
    (t : option Template.t) : option types.Store :=
  match t, cur with
  | None, _ => cur
  | Some _, Some st => Some st
  | Some t, None => supplied d t
  end.

(** The hook of a template pointer, if it is not nil and has one. *)
Definition hookOf (t : option Template.t)
    : option (APISchema.t -> APISchema.t) :=
  t ≫= Template.Customize.

(** The templates a schema matches, in the order they are visited. *)
Definition visited (c : Collection) (schema : APISchema.t)
    : list (option Template.t) :=
  default [] (templates c !! APISchema.ID schema)
  ++ default [] (templates c !!
                   (APISchema.Group schema +:+ "/" +:+ APISchema.Kind schema))
  ++ default [] (templates c !! "").

(** The hooks of a list of templates leave the formatter and the store
    of the schema they receive as they are. *)
Definition hooksKeep (l : list (option Template.t)) : Prop :=
  forall t hook, Some t ∈ l -> Template.Customize t = Some hook ->
    forall x, APISchema.Formatter (hook x) = APISchema.Formatter x
              ∧ APISchema.Store (hook x) = APISchema.Store x.

(** The decision identities of the live entries, without the cached
    values. *)
Definition principalIndex (c : Collection) (user : string) : option string :=
  fst <$> userCache c !! user.

Definition cached (c : Collection) (id : string) : bool :=
  bool_decide (is_Some (cache c !! id)).






(** The grants on a verb that the filter keeps for a schema: all of
    them for a namespaced schema, the cluster-wide ones, in their order,
    for a schema that is not. *)
Definition kept (access : AccessSet.t) (s : APISchema.t) (verb : string)
    : list accesscontrol.Access :=
  let a := AccessSet.AccessListFor access verb (attributes.GR s) in
  if APISchema.Namespaced s then a
  else filter (fun x => accesscontrol.Namespace x = accesscontrol.All) a.

(** The verbs the derived operations depend on. *)
Definition operationVerbs : list string :=
  ["list"; "get"; "delete"; "update"; "create"].

(** The formatter functions of a chain, from the outermost first
    argument of [FormatterChain] to the innermost second one. *)
Fixpoint chained (f : types.Formatter) : list string :=
  match f with
  | types.FormatterFunc name => [name]
  | types.FormatterChain formatter next => chained formatter ++ chained next
  end.

Definition chainedIn (f : option types.Formatter) : list string :=
  match f with
  | Some f => chained f
  | None => []
  end.

(** The formatter functions a template pointer contributes. *)
Definition templateChained (t : option Template.t) : list string :=
  chainedIn (t ≫= Template.Formatter).

(** * Inputs of the examples *)

Definition clusterroles : APISchema.t :=
  {| APISchema.ID := "rbac.authorization.k8s.io.clusterrole";
     APISchema.Group := "rbac.authorization.k8s.io";
     APISchema.Resource := "clusterroles";
     APISchema.Kind := "ClusterRole";
     APISchema.Verbs := ["get"; "list"];
     APISchema.Namespaced := false;
     APISchema.DisallowMethods := ∅;
     APISchema.Access := None;
     APISchema.ResourceMethods := [];
     APISchema.CollectionMethods := [];
     APISchema.Formatter := None;
     APISchema.Store := None |}.

(** A decision set that answers every [get] query with one grant scoped
    to the namespace team-a and one cluster-wide grant. *)
Definition teamAccess : AccessSet.t :=
  {| AccessSet.ID := "team";
     AccessSet.AccessListFor := fun verb _ =>
       if decide (verb = "get")
       then [ {| accesscontrol.Namespace := "team-a";
                 accesscontrol.ResourceName := "*" |};
              {| accesscontrol.Namespace := "*";
                 accesscontrol.ResourceName := "*" |} ]
       else [];
     AccessSet.Namespaces := ["team-a"] |}.

(** The core namespaces schema, with no method of its own. *)
Definition namespaces : APISchema.t :=
  {| APISchema.ID := "namespace";
     APISchema.Group := "";
     APISchema.Resource := "namespaces";
     APISchema.Kind := "Namespace";
     APISchema.Verbs := ["get"; "list"; "watch"];
     APISchema.Namespaced := false;
     APISchema.DisallowMethods := ∅;
     APISchema.Access := None;
     APISchema.ResourceMethods := [];
     APISchema.CollectionMethods := [];
     APISchema.Formatter := None;
     APISchema.Store := None |}.

(** A decision set with no grant and two visible namespaces. *)
Definition twoNamespaces : AccessSet.t :=
  {| AccessSet.ID := "two";
     AccessSet.AccessListFor := fun _ _ => [];
     AccessSet.Namespaces := ["ns1"; "ns2"] |}.

(** Secrets, with GET in the block-list. *)
Definition secrets : APISchema.t :=
  {| APISchema.ID := "secret";
     APISchema.Group := "";
     APISchema.Resource := "secrets";
     APISchema.Kind := "Secret";
     APISchema.Verbs := ["list"; "delete"];
     APISchema.Namespaced := true;
     APISchema.DisallowMethods := {[ "GET" := true ]};
     APISchema.Access := None;
     APISchema.ResourceMethods := [];
     APISchema.CollectionMethods := [];
     APISchema.Formatter := None;
     APISchema.Store := None |}.

(** A decision set whose only grants are on [list], in one namespace. *)
Definition listOnly : AccessSet.t :=
  {| AccessSet.ID := "list-only";
     AccessSet.AccessListFor := fun verb _ =>
       if decide (verb = "list")
       then [ {| accesscontrol.Namespace := "team-a";
                 accesscontrol.ResourceName := "*" |} ]
       else [];
     AccessSet.Namespaces := ["team-a"] |}.

(** A decision set with no grant and no visible namespace. *)
Definition noGrants : AccessSet.t :=
  {| AccessSet.ID := "none";
     AccessSet.AccessListFor := fun _ _ => [];
     AccessSet.Namespaces := [] |}.

(** A catalog check that accepts every schema. *)
Definition acceptAll : APISchemas.t -> APISchema.t -> option error :=
  fun _ _ => None.

(** A hook that only names the resource methods of the schema. *)
Definition markHooked (s : APISchema.t) : APISchema.t :=
  APISchema.with_ResourceMethods s ["hooked"].

Definition pods : APISchema.t :=
  {| APISchema.ID := "pod";
     APISchema.Group := "";
     APISchema.Resource := "pods";
     APISchema.Kind := "Pod";
     APISchema.Verbs := ["get"; "list"; "create"; "update"; "delete"];
     APISchema.Namespaced := true;
     APISchema.DisallowMethods := ∅;
     APISchema.Access := None;
     APISchema.ResourceMethods := [];
     APISchema.CollectionMethods := [];
     APISchema.Formatter := None;
     APISchema.Store := None |}.

(** A collection with one exact template for pods, carrying a hook, and
    one wildcard template carrying a formatter and a store. *)
Definition templated : Collection :=
  {| baseSchema := APISchemas.EmptyAPISchemas;
     schemas := [pods];
     templates :=
       <["pod" := [Some {| Template.Customize := Some markHooked;
                           Template.Formatter := None;
                           Template.Store := None;
                           Template.StoreFactory := None |}]]>
       (<["" := [Some {| Template.Customize := None;
                         Template.Formatter :=
                           Some (types.FormatterFunc "links");
                         Template.Store := Some (types.StoreHandle "proxy");
                         Template.StoreFactory := None |}]]> ∅);
     cache := ∅; userCache := ∅; userTimeoutCache := ∅; purged := [] |}.

(** A decision set, named [id], that grants every verb cluster-wide. *)
Definition grantAll (id : string) : AccessSet.t :=
  {| AccessSet.ID := id;
     AccessSet.AccessListFor := fun _ _ =>
       [ {| accesscontrol.Namespace := "*";
            accesscontrol.ResourceName := "*" |} ];
     AccessSet.Namespaces := [] |}.

(** The engine while alice holds the decision identity d1 and everyone
    else d2, and the engine once alice holds d2 as well. *)
Definition engineBefore (user : string) : AccessSet.t :=
  if decide (user = "alice") then grantAll "d1" else grantAll "d2".

Definition engineAfter (user : string) : AccessSet.t := grantAll "d2".

(** A collection that serves pods, with empty caches. *)
Definition fresh : Collection :=
  {| baseSchema := APISchemas.EmptyAPISchemas;
     schemas := [pods];
     templates := ∅;
     cache := ∅; userCache := ∅; userTimeoutCache := ∅; purged := [] |}.

(** A catalog check that refuses a schema whose identity is taken. *)
Definition rejectDuplicate (a : APISchemas.t) (schema : APISchema.t)
    : option error :=
  match APISchemas.Schemas a !! APISchema.ID schema with
  | Some _ => Some "duplicate schema"
  | None => None
  end.

(** Alice is served at instant 0, bob at instant 1. *)
Definition aliceServed : Collection :=
  (Schemas APISchemas.EmptyAPISchemas acceptAll defaultCacheTimeout
     engineBefore (instant 0) "alice" fresh).1.

Definition bobServed : Collection :=
  (Schemas APISchemas.EmptyAPISchemas acceptAll defaultCacheTimeout
     engineBefore (instant 1) "bob" aliceServed).1.

(** The catalog of [aliceServed] after a second schema with the identity
    of pods was registered. *)
Definition crowded : Collection := with_schemas aliceServed [pods; pods].

(** A collection whose first wildcard template is a nil pointer, with
    an exact template for pods that has a store factory. *)
Definition nilDefault : Collection :=
  {| baseSchema := APISchemas.EmptyAPISchemas;
     schemas := [pods];
     templates :=
       <["pod" := [Some {| Template.Customize := None;
                           Template.Formatter := None;
                           Template.Store := None;
                           Template.StoreFactory := Some (fun d => d) |}]]>
       (<["" := [None]]> ∅);
     cache := ∅; userCache := ∅; userTimeoutCache := ∅; purged := [] |}.

(** Pods, clusterroles and a schema without a resource. *)
Definition apiRoot : APISchema.t :=
  {| APISchema.ID := "apiRoot";
     APISchema.Group := "";
     APISchema.Resource := "";
     APISchema.Kind := "";
     APISchema.Verbs := [];
     APISchema.Namespaced := false;
     APISchema.DisallowMethods := ∅;
     APISchema.Access := None;
     APISchema.ResourceMethods := [];
     APISchema.CollectionMethods := [];
     APISchema.Formatter := None;
     APISchema.Store := None |}.

(** A decision set whose only grants are on [watch], cluster-wide. *)
Definition watchOnly : AccessSet.t :=
  {| AccessSet.ID := "watch-only";
     AccessSet.AccessListFor := fun verb _ =>
       if decide (verb = "watch")
       then [ {| accesscontrol.Namespace := "*";
                 accesscontrol.ResourceName := "*" |} ]
       else [];
     AccessSet.Namespaces := ["team-a"] |}.

(** Configmaps, which support watch besides get and list. *)
Definition configmaps : APISchema.t :=
  {| APISchema.ID := "configmap";
     APISchema.Group := "";
     APISchema.Resource := "configmaps";
     APISchema.Kind := "ConfigMap";
     APISchema.Verbs := ["get"; "list"; "watch"];
     APISchema.Namespaced := true;
     APISchema.DisallowMethods := ∅;
     APISchema.Access := None;
     APISchema.ResourceMethods := [];
     APISchema.CollectionMethods := [];
     APISchema.Formatter := None;
     APISchema.Store := None |}.

(** The core namespaces schema with GET in its block-list. *)
Definition namespacesBlocked : APISchema.t :=
  {| APISchema.ID := "namespace";
     APISchema.Group := "";
     APISchema.Resource := "namespaces";
     APISchema.Kind := "Namespace";
     APISchema.Verbs := ["get"; "list"; "watch"];
     APISchema.Namespaced := false;
     APISchema.DisallowMethods := {[ "GET" := true ]};
     APISchema.Access := None;
     APISchema.ResourceMethods := [];
     APISchema.CollectionMethods := [];
     APISchema.Formatter := None;
     APISchema.Store := None |}.

(** A call during which the clock advances by one nanosecond between
    the additions to the two caches and by one more before
    [time.Now()]. *)
Definition oneTick : Clock :=
  {| userGetAt := 0; cacheGetAt := 0; cacheAddAt := 0;
     userAddAt := 1; timeNow := 2 |}.

(** Alice is served during [oneTick]. *)
Definition aliceTicked : Collection :=
  (Schemas APISchemas.EmptyAPISchemas acceptAll defaultCacheTimeout
     engineBefore oneTick "alice" fresh).1.

(** * Properties *)

(** ** The filter *)

Section FilterFacts.

Variable access : AccessSet.t.

Lemma trim_foldl (a acc : list accesscontrol.Access) :
  foldl (fun result access =>
           if decide (accesscontrol.Namespace access = accesscontrol.All)
           then result ++ [access] else result) acc a
  = acc ++ filter (fun x => accesscontrol.Namespace x = accesscontrol.All) a.
Proof.
  revert acc. induction a as [|x a IH]; intros acc; simpl.
  - by rewrite app_nil_r.
  - rewrite IH, filter_cons. destruct (decide _); [|done].
    by rewrite <- app_assoc.
Qed.

Lemma trim_filter (a : list accesscontrol.Access) :
  trim a = filter (fun x => accesscontrol.Namespace x = accesscontrol.All) a.
Proof. unfold trim. by rewrite trim_foldl. Qed.

Lemma trim_cluster_wide (a : list accesscontrol.Access) x :
  x ∈ trim a -> accesscontrol.Namespace x = accesscontrol.All.
Proof. rewrite trim_filter, list_elem_of_filter. tauto. Qed.

Lemma namespaceAccessList_foldl (l : list string) acc :
  foldl (fun accessList ns =>
           accessList ++ [{| accesscontrol.Namespace := accesscontrol.All;
                             accesscontrol.ResourceName := ns |}]) acc l
  = acc ++ map (fun ns => {| accesscontrol.Namespace := accesscontrol.All;
                             accesscontrol.ResourceName := ns |}) l.
Proof.
  revert acc. induction l as [|ns l IH]; intros acc; simpl.
  - by rewrite app_nil_r.
  - by rewrite IH, <- app_assoc.
Qed.

Lemma namespaceAccessList_map :
  namespaceAccessList access
  = map (fun ns => {| accesscontrol.Namespace := accesscontrol.All;
                      accesscontrol.ResourceName := ns |})
        (AccessSet.Namespaces access).
Proof. unfold namespaceAccessList. by rewrite namespaceAccessList_foldl. Qed.

Lemma verbAccessStep_surviving (s : APISchema.t)
    (va : gmap string (list accesscontrol.Access)) (verb : string) :
  verbAccessStep access s (attributes.GR s) va verb
  = if decide (surviving access s verb = []) then va
    else <[verb := surviving access s verb]> va.
Proof.
  unfold verbAccessStep, surviving.
  destruct (if APISchema.Namespaced s then _ else _) as [|x l];
    destruct (decide _); simpl; congruence.
Qed.

Lemma verbAccess_foldl_lookup (s : APISchema.t) (verbs : list string)
    (acc : gmap string (list accesscontrol.Access)) (v : string) :
  foldl (verbAccessStep access s (attributes.GR s)) acc verbs !! v
  = if decide (v ∈ verbs ∧ surviving access s v ≠ []) then Some (surviving access s v)
    else acc !! v.
Proof.
  revert acc. induction verbs as [|verb verbs IH]; intros acc; cbn [foldl].
  - destruct (decide _) as [[H _]|]; [|done]. by apply elem_of_nil in H.
  - rewrite IH, verbAccessStep_surviving.
    destruct (decide (v ∈ verbs ∧ surviving access s v ≠ [])) as [[Hin Hne]|Hn].
    + rewrite decide_True; [done|]. split; [apply elem_of_cons; by right|done].
    + destruct (decide (v = verb)) as [->|Hv].
      * destruct (decide (surviving access s verb = [])) as [He|He].
        -- rewrite decide_False; [done|]. intros [_ ?]. done.
        -- rewrite lookup_insert_eq, decide_True; [done|].
           split; [apply elem_of_cons; by left|done].
      * assert (acc' : (if decide (surviving access s verb = []) then acc
                        else <[verb:=surviving access s verb]> acc) !! v = acc !! v).
        { destruct (decide _); [done|]. by rewrite lookup_insert_ne. }
        rewrite acc'. rewrite decide_False; [done|].
        intros [Hin Hne]. apply Hn. split; [|done].
        apply elem_of_cons in Hin as [?|?]; [done|done].
Qed.

(** The map [verbAccess] after the loop over the verbs: a supported verb
    with a surviving grant maps to its surviving grants, and no other
    key is present. *)
Lemma verbAccessOf_lookup (s : APISchema.t) (v : string) :
  verbAccessOf access s !! v
  = if decide (v ∈ APISchema.Verbs s ∧ surviving access s v ≠ [])
    then Some (surviving access s v) else None.
Proof.
  unfold verbAccessOf. rewrite verbAccess_foldl_lookup.
  destruct (decide _); [done|]. apply lookup_empty.
Qed.

Lemma verbAccessOf_empty (s : APISchema.t) :
  (forall v, v ∈ APISchema.Verbs s -> surviving access s v = []) ->
  verbAccessOf access s = ∅.
Proof.
  intros H. apply map_eq. intros v. rewrite verbAccessOf_lookup, lookup_empty.
  rewrite decide_False; [done|]. intros [Hin Hne]. by apply Hne, H.
Qed.

End FilterFacts.

(** *** The derived operations, following the spec's table *)

Section DeriveFacts.

Variables (s : APISchema.t) (va : gmap string (list accesscontrol.Access)).

Lemma derive_Access : APISchema.Access (derive s va) = Some va.
Proof.
  unfold derive. repeat (destruct (accesscontrol.AnyVerb va _)); reflexivity.
Qed.

Lemma derive_ResourceMethods :
  APISchema.ResourceMethods (derive s va)
  = APISchema.ResourceMethods s
    ++ tableResourceOps va (APISchema.DisallowMethods s).
Proof.
  unfold derive, tableResourceOps, operationTable, allowed, tag,
    attributes.disallowed.
  cbn [flat_map fst snd map].
  repeat (destruct (accesscontrol.AnyVerb va _)); cbn;
    rewrite ?app_nil_r, <- ?app_assoc; reflexivity.
Qed.

Lemma derive_CollectionMethods :
  APISchema.CollectionMethods (derive s va)
  = APISchema.CollectionMethods s
    ++ tableCollectionOps va (APISchema.DisallowMethods s).
Proof.
  unfold derive, tableCollectionOps, operationTable, allowed, tag,
    attributes.disallowed.
  cbn [flat_map fst snd map].
  repeat (destruct (accesscontrol.AnyVerb va _)); cbn;
    rewrite ?app_nil_r, <- ?app_assoc; reflexivity.
Qed.

Lemma derive_ID : APISchema.ID (derive s va) = APISchema.ID s.
Proof.
  unfold derive. repeat (destruct (accesscontrol.AnyVerb va _)); reflexivity.
Qed.

End DeriveFacts.

(** The operation names of the table carry no tag of their own. *)
Lemma tag_untagged (block : gmap string bool) (op op' : string) :
  op' ∈ [MethodGet; MethodDelete; MethodPut; MethodPatch; MethodPost] ->
  op ∈ [MethodGet; MethodDelete; MethodPut; MethodPatch; MethodPost] ->
  tag block op' = op -> op' = op ∧ default false (block !! op) = false.
Proof.
  intros Hop' Hop. unfold tag.
  destruct (default false (block !! op')) eqn:Hb.
  - intros Heq. exfalso.
    repeat (apply elem_of_cons in Hop' as [->|Hop']);
      try (by apply elem_of_nil in Hop');
      repeat (apply elem_of_cons in Hop as [->|Hop]);
      try (by apply elem_of_nil in Hop); discriminate Heq.
  - intros ->. done.
Qed.

Section TableFacts.

Variables (va : gmap string (list accesscontrol.Access))
          (block : gmap string bool).

Lemma tag_empty (op : string) : tag ∅ op = op.
Proof. unfold tag. by rewrite lookup_empty. Qed.

Lemma tableResourceOps_tag :
  tableResourceOps va block = map (tag block) (tableResourceOps va ∅).
Proof.
  unfold tableResourceOps, operationTable. cbn [flat_map fst snd map].
  rewrite !tag_empty.
  repeat (destruct (accesscontrol.AnyVerb va _)); reflexivity.
Qed.

Lemma tableCollectionOps_tag :
  tableCollectionOps va block = map (tag block) (tableCollectionOps va ∅).
Proof.
  unfold tableCollectionOps, operationTable. cbn [flat_map fst snd map].
  rewrite !tag_empty.
  repeat (destruct (accesscontrol.AnyVerb va _)); reflexivity.
Qed.

Lemma tableResourceOps_names (op : string) :
  op ∈ tableResourceOps va ∅ ->
  op ∈ [MethodGet; MethodDelete; MethodPut; MethodPatch; MethodPost].
Proof.
  unfold tableResourceOps, operationTable. cbn [flat_map fst snd map].
  rewrite !tag_empty.
  repeat (destruct (accesscontrol.AnyVerb va _)); cbn [app];
    rewrite !elem_of_cons, !elem_of_nil; tauto.
Qed.

Lemma tableCollectionOps_names (op : string) :
  op ∈ tableCollectionOps va ∅ ->
  op ∈ [MethodGet; MethodDelete; MethodPut; MethodPatch; MethodPost].
Proof.
  unfold tableCollectionOps, operationTable. cbn [flat_map fst snd map].
  rewrite !tag_empty.
  repeat (destruct (accesscontrol.AnyVerb va _)); cbn [app];
    rewrite !elem_of_cons, !elem_of_nil; tauto.
Qed.

Lemma tag_blocked (op : string) :
  default false (block !! op) = true -> tag block op = "blocked-" +:+ op.
Proof. unfold tag. by intros ->. Qed.

Lemma tableResourceOps_blocked (op : string) :
  default false (block !! op) = true ->
  op ∈ tableResourceOps va ∅ ->
  "blocked-" +:+ op ∈ tableResourceOps va block.
Proof.
  intros Hb Hin. rewrite tableResourceOps_tag, <- (tag_blocked op Hb).
  by apply (list_elem_of_fmap_2 (tag block)).
Qed.

Lemma tableCollectionOps_blocked (op : string) :
  default false (block !! op) = true ->
  op ∈ tableCollectionOps va ∅ ->
  "blocked-" +:+ op ∈ tableCollectionOps va block.
Proof.
  intros Hb Hin. rewrite tableCollectionOps_tag, <- (tag_blocked op Hb).
  by apply (list_elem_of_fmap_2 (tag block)).
Qed.

Lemma tableResourceOps_not_plain (op : string) :
  default false (block !! op) = true ->
  op ∈ tableResourceOps va ∅ ->
  op ∉ tableResourceOps va block.
Proof.
  intros Hb Hin. rewrite tableResourceOps_tag.
  intros (op' & Heq & Hin')%list_elem_of_fmap.
  destruct (tag_untagged block op op') as [_ Hf]; [| |done|congruence];
    by apply tableResourceOps_names.
Qed.

Lemma tableCollectionOps_not_plain (op : string) :
  default false (block !! op) = true ->
  op ∈ tableCollectionOps va ∅ ->
  op ∉ tableCollectionOps va block.
Proof.
  intros Hb Hin. rewrite tableCollectionOps_tag.
  intros (op' & Heq & Hin')%list_elem_of_fmap.
  destruct (tag_untagged block op op') as [_ Hf]; [| |done|congruence];
    by apply tableCollectionOps_names.
Qed.

End TableFacts.

Section FilterSchemaFacts.

Variable access : AccessSet.t.

Lemma filterSchema_eq (s : APISchema.t) :
  filterSchema access s
  = ((namespacesFallback access s (verbAccessOf access s)).1,
     derive (namespacesFallback access s (verbAccessOf access s)).1
            (namespacesFallback access s (verbAccessOf access s)).2).
Proof.
  unfold filterSchema.
  by destruct (namespacesFallback access s (verbAccessOf access s)).
Qed.

Lemma namespacesFallback_base (s : APISchema.t)
    (va : gmap string (list accesscontrol.Access)) :
  (namespacesFallback access s va).1
  = if decide (va = ∅
               ∧ (APISchema.Group s = "" ∧ APISchema.Resource s = "namespaces")
               ∧ AccessSet.Namespaces access = [])
    then APISchema.with_CollectionMethods s
           (APISchema.CollectionMethods s ++ [MethodGet])
    else s.
Proof.
  unfold namespacesFallback. rewrite namespaceAccessList_map.
  destruct (decide (size va = 0)) as [Hs|Hs].
  - apply map_size_empty_iff in Hs as ->.
    destruct (decide (APISchema.Group s = "" ∧ _)) as [Hg|Hg].
    + destruct (AccessSet.Namespaces access) as [|ns l]; simpl.
      * by rewrite decide_True.
      * rewrite decide_False; [done|]. intros (_ & _ & ?). done.
    + rewrite decide_False; [done|]. intros (_ & ? & _). done.
  - rewrite decide_False; [done|]. intros (-> & _). by apply Hs.
Qed.

(** The frame of the loop body on the shared catalog: the schema is
    left as it was, except in the always-allow-list case of line 149,
    where it gains a collection-level GET. *)
Lemma filterSchema_base (s : APISchema.t) :
  (filterSchema access s).1
  = if decide (alwaysListed access s)
    then APISchema.with_CollectionMethods s
           (APISchema.CollectionMethods s ++ [MethodGet])
    else s.
Proof.
  rewrite filterSchema_eq. cbn [fst]. rewrite namespacesFallback_base.
  destruct (decide (alwaysListed access s)) as [H|H].
  - by rewrite decide_True by exact H.
  - by rewrite decide_False by exact H.
Qed.

Lemma namespacesFallback_access (s : APISchema.t)
    (va : gmap string (list accesscontrol.Access)) :
  (namespacesFallback access s va).2
  = if decide (va = ∅
               ∧ APISchema.Group s = "" ∧ APISchema.Resource s = "namespaces")
    then <["watch" := namespaceAccessList access]>
           (<["get" := namespaceAccessList access]> ∅)
    else va.
Proof.
  unfold namespacesFallback.
  destruct (decide (size va = 0)) as [Hs|Hs].
  - apply map_size_empty_iff in Hs as ->.
    destruct (decide (APISchema.Group s = "" ∧ _)) as [Hg|Hg].
    + destruct (decide (length _ = 0)); cbn [snd];
        by rewrite decide_True by (split; [reflexivity|exact Hg]).
    + rewrite decide_False; [done|]. tauto.
  - rewrite decide_False; [done|]. intros (-> & _). by apply Hs.
Qed.

Lemma filterSchema_DisallowMethods (s : APISchema.t) :
  APISchema.DisallowMethods (filterSchema access s).1
  = APISchema.DisallowMethods s.
Proof. rewrite filterSchema_base. by destruct (decide _). Qed.

Lemma filterSchema_ResourceMethods_base (s : APISchema.t) :
  APISchema.ResourceMethods (filterSchema access s).1
  = APISchema.ResourceMethods s.
Proof. rewrite filterSchema_base. by destruct (decide _). Qed.

End FilterSchemaFacts.

(** C4 (cluster-scope grant trimming).  For a schema that is not
    namespaced, the access map attached to the filtered schema holds
    cluster-wide grants only: every grant of the decision set, on any
    verb the schema supports, whose scope is a specific namespace is
    absent from it. *)
Theorem cluster_scope_grant_trimming (access : AccessSet.t)
    (s : APISchema.t) :
  APISchema.Namespaced s = false ->
  exists va,
    APISchema.Access (filterSchema access s).2 = Some va
    ∧ (forall verb grants grant,
         va !! verb = Some grants -> grant ∈ grants ->
         accesscontrol.Namespace grant = accesscontrol.All)
    ∧ (forall verb grant,
         verb ∈ APISchema.Verbs s ->
         grant ∈ AccessSet.AccessListFor access verb (attributes.GR s) ->
         accesscontrol.Namespace grant ≠ accesscontrol.All ->
         forall grants, va !! verb = Some grants -> grant ∉ grants).
Proof.
  intros Hns.
  assert (Hall : forall verb grants grant,
             (namespacesFallback access s (verbAccessOf access s)).2 !! verb
               = Some grants ->
             grant ∈ grants ->
             accesscontrol.Namespace grant = accesscontrol.All).
  { intros verb grants grant. rewrite namespacesFallback_access.
    destruct (decide _) as [_|_].
    - rewrite namespaceAccessList_map. intros Hl Hin.
      assert (grants = map (fun ns =>
                {| accesscontrol.Namespace := accesscontrol.All;
                   accesscontrol.ResourceName := ns |})
                (AccessSet.Namespaces access)) as ->.
      { destruct (decide (verb = "watch")) as [->|Hw].
        - rewrite lookup_insert_eq in Hl. congruence.
        - rewrite lookup_insert_ne in Hl by done.
          destruct (decide (verb = "get")) as [->|Hg].
          + rewrite lookup_insert_eq in Hl. congruence.
          + rewrite lookup_insert_ne, lookup_empty in Hl by done. done. }
      apply list_elem_of_fmap in Hin as (ns & -> & _). done.
    - rewrite verbAccessOf_lookup. destruct (decide _); [|done].
      intros [= <-]. unfold surviving. rewrite Hns. apply trim_cluster_wide. }
  exists (namespacesFallback access s (verbAccessOf access s)).2.
  split; [|split].
  - rewrite filterSchema_eq. cbn [snd]. apply derive_Access.
  - exact Hall.
  - intros verb grant _ _ Hscope grants Hl Hin.
    apply Hscope. by eapply Hall.
Qed.

Lemma cluster_scope_grant_trimming_witness :
  APISchema.Access (filterSchema teamAccess clusterroles).2
  = Some {[ "get" := [ {| accesscontrol.Namespace := "*";
                          accesscontrol.ResourceName := "*" |} ] ]}
  ∧ exists va,
      APISchema.Access (filterSchema teamAccess clusterroles).2 = Some va
      ∧ (forall verb grants grant,
           va !! verb = Some grants -> grant ∈ grants ->
           accesscontrol.Namespace grant = accesscontrol.All)
      ∧ (forall verb grant,
           verb ∈ APISchema.Verbs clusterroles ->
           grant ∈ AccessSet.AccessListFor teamAccess verb
                     (attributes.GR clusterroles) ->
           accesscontrol.Namespace grant ≠ accesscontrol.All ->
           forall grants, va !! verb = Some grants -> grant ∉ grants).
Proof.
  split; [vm_compute; reflexivity|].
  apply (cluster_scope_grant_trimming teamAccess clusterroles). reflexivity.
Defined.



(** C6 (derived operations and blocked-operation tagging).  The filtered
    schema carries the access map, and its method lists are those of the
    schema it was cloned from followed by the operations of the spec's
    table for that map, each passed through the block-list; an operation
    of the table that is in the block-list appears in its tagged form
    and not in its plain form among the derived operations. *)
Theorem derived_operations (access : AccessSet.t) (s : APISchema.t) :
  let base := (filterSchema access s).1 in
  let clone := (filterSchema access s).2 in
  let block := APISchema.DisallowMethods s in
  exists va,
    APISchema.Access clone = Some va
    ∧ APISchema.ResourceMethods clone
      = APISchema.ResourceMethods s ++ tableResourceOps va block
    ∧ APISchema.CollectionMethods clone
      = APISchema.CollectionMethods base ++ tableCollectionOps va block
    ∧ (forall op, default false (block !! op) = true ->
         (op ∈ tableResourceOps va ∅ ->
            "blocked-" +:+ op ∈ APISchema.ResourceMethods clone
            ∧ op ∉ tableResourceOps va block)
         ∧ (op ∈ tableCollectionOps va ∅ ->
            "blocked-" +:+ op ∈ APISchema.CollectionMethods clone
            ∧ op ∉ tableCollectionOps va block)).
Proof.
  intros base clone block.
  set (va := (namespacesFallback access s (verbAccessOf access s)).2).
  assert (Hclone : clone = derive base va).
  { unfold clone, base. rewrite filterSchema_eq. reflexivity. }
  assert (Hblock : APISchema.DisallowMethods base = block).
  { apply filterSchema_DisallowMethods. }
  assert (HR : APISchema.ResourceMethods clone
               = APISchema.ResourceMethods s ++ tableResourceOps va block).
  { rewrite Hclone, derive_ResourceMethods, Hblock. unfold base.
    by rewrite filterSchema_ResourceMethods_base. }
  assert (HC : APISchema.CollectionMethods clone
               = APISchema.CollectionMethods base
                 ++ tableCollectionOps va block).
  { by rewrite Hclone, derive_CollectionMethods, Hblock. }
  exists va. split; [|split; [|split]]; [|exact HR|exact HC|].
  - rewrite Hclone. apply derive_Access.
  - intros op Hop. rewrite HR, HC. split; intros Hin.
    + split.
      * apply elem_of_app. right. by apply tableResourceOps_blocked.
      * by apply tableResourceOps_not_plain.
    + split.
      * apply elem_of_app. right. by apply tableCollectionOps_blocked.
      * by apply tableCollectionOps_not_plain.
Qed.

Lemma derived_operations_witness :
  APISchema.ResourceMethods (filterSchema listOnly secrets).2
  = ["blocked-GET"]
  ∧ APISchema.CollectionMethods (filterSchema listOnly secrets).2
    = ["blocked-GET"]
  ∧ "blocked-" +:+ "GET"
    ∈ APISchema.CollectionMethods (filterSchema listOnly secrets).2.
Proof.
  destruct (derived_operations listOnly secrets) as (va & Ha & HR & HC & Htag).
  vm_compute in Ha. injection Ha as <-.
  split; [rewrite HR; vm_compute; reflexivity|].
  split; [rewrite HC; vm_compute; reflexivity|].
  apply (Htag "GET"); [reflexivity|].
  vm_compute. by left.
Defined.

(** *** The loop over the catalog *)

Section FilterSchemasFacts.

Variable schemaError : APISchemas.t -> APISchema.t -> option error.
Variable access : AccessSet.t.

Lemma AddSchema_lookup (a a' : APISchemas.t) (schema : APISchema.t)
    (id : string) :
  AddSchema schemaError a schema = inr a' ->
  APISchemas.Schemas a' !! id
  = if decide (APISchema.ID schema = id) then Some schema
    else APISchemas.Schemas a !! id.
Proof.
  unfold AddSchema. destruct (schemaError a schema); [done|].
  intros [= <-]. cbn. apply lookup_insert.
Qed.

Lemma cellAfter_filterSchema (s : APISchema.t) :
  APISchema.Resource s ≠ "" -> cellAfter access s (filterSchema access s).1.
Proof.
  intros Hr. unfold cellAfter. rewrite filterSchema_base.
  destruct (decide (alwaysListed access s)); auto.
Qed.

Lemma Forall2_cellAfter_refl (l : list APISchema.t) : Forall2 (cellAfter access) l l.
Proof. induction l; constructor; [by left|done]. Qed.

(** The frame of the loop on the shared catalog. *)
Lemma filterSchemas_frame (schemas : list APISchema.t)
    (result : APISchemas.t) :
  Forall2 (cellAfter access) schemas (filterSchemas schemaError access schemas result).1.
Proof.
  revert result. induction schemas as [|s rest IH]; intros result;
    cbn [filterSchemas]; [constructor|].
  destruct (decide (APISchema.Resource s = "")) as [Hr|Hr].
  - destruct (AddSchema schemaError result s) as [err|result'].
    + apply Forall2_cellAfter_refl.
    + specialize (IH result').
      destruct (filterSchemas schemaError access rest result').
      constructor; [by left|done].
  - pose proof (cellAfter_filterSchema s Hr) as Hcell.
    destruct (filterSchema access s) as [s' clone]. cbn [fst] in Hcell.
    destruct (noMethods clone).
    + specialize (IH result).
      destruct (filterSchemas schemaError access rest result).
      by constructor.
    + destruct (AddSchema schemaError result clone) as [err|result'].
      * constructor; [done|apply Forall2_cellAfter_refl].
      * specialize (IH result').
        destruct (filterSchemas schemaError access rest result').
        by constructor.
Qed.

(** Where the entries of the result catalog come from: the catalog the
    loop started with, a schema without a resource copied through, or
    the clone built for a schema of the shared catalog. *)
Lemma filterSchemas_entries (schemas schemas' : list APISchema.t)
    (result result' : APISchemas.t) (id : string) (x : APISchema.t) :
  filterSchemas schemaError access schemas result = (schemas', inr result') ->
  APISchemas.Schemas result' !! id = Some x ->
  APISchemas.Schemas result !! id = Some x
  ∨ exists s, s ∈ schemas
      ∧ ((APISchema.Resource s = "" ∧ x = s)
         ∨ (APISchema.Resource s ≠ "" ∧ x = (filterSchema access s).2
            ∧ noMethods x = false)).
Proof.
  revert schemas' result. induction schemas as [|s rest IH];
    intros schemas' result; cbn [filterSchemas].
  - intros [= _ <-]. auto.
  - destruct (decide (APISchema.Resource s = "")) as [Hr|Hr].
    + destruct (AddSchema schemaError result s) as [err|r1] eqn:Hadd; [done|].
      destruct (filterSchemas schemaError access rest r1) as [rest' r] eqn:Hf.
      intros [= _ ->] Hx.
      destruct (IH _ _ Hf Hx) as [Hold|(s0 & Hin & Hs0)].
      * rewrite (AddSchema_lookup _ _ _ id Hadd) in Hold.
        destruct (decide _); [|by left].
        right. exists s. split; [apply elem_of_cons; by left|].
        left. split; [done|congruence].
      * right. exists s0. split; [apply elem_of_cons; by right|done].
    + destruct (filterSchema access s) as [s' clone] eqn:Hfs.
      assert (Hclone : clone = (filterSchema access s).2) by by rewrite Hfs.
      destruct (noMethods clone) eqn:Hnm.
      * destruct (filterSchemas schemaError access rest result)
          as [rest' r] eqn:Hf.
        intros [= _ ->] Hx.
        destruct (IH _ _ Hf Hx) as [Hold|(s0 & Hin & Hs0)]; [by left|].
        right. exists s0. split; [apply elem_of_cons; by right|done].
      * destruct (AddSchema schemaError result clone) as [err|r1] eqn:Hadd;
          [done|].
        destruct (filterSchemas schemaError access rest r1)
          as [rest' r] eqn:Hf.
        intros [= _ ->] Hx.
        destruct (IH _ _ Hf Hx) as [Hold|(s0 & Hin & Hs0)].
        -- rewrite (AddSchema_lookup _ _ _ id Hadd) in Hold.
           destruct (decide _); [|by left].
           right. exists s. split; [apply elem_of_cons; by left|].
           right. split; [done|]. split; congruence.
        -- right. exists s0. split; [apply elem_of_cons; by right|done].
Qed.

Lemma addSchemaList_entries (a a' : APISchemas.t)
    (l : list (string * APISchema.t)) (id : string) (x : APISchema.t) :
  addSchemaList schemaError a l = inr a' ->
  APISchemas.Schemas a' !! id = Some x ->
  APISchemas.Schemas a !! id = Some x ∨ exists k, (k, x) ∈ l.
Proof.
  revert a. induction l as [|[k schema] l IH]; intros a; cbn [addSchemaList].
  - intros [= <-]. auto.
  - destruct (AddSchema schemaError a schema) as [err|a1] eqn:Hadd; [done|].
    intros Hrest Hx. destruct (IH _ Hrest Hx) as [Hold|[k' Hin]].
    + rewrite (AddSchema_lookup _ _ _ id Hadd) in Hold.
      destruct (decide _); [|by left].
      right. exists k. apply elem_of_cons. left. congruence.
    + right. exists k'. apply elem_of_cons. by right.
Qed.

Lemma AddSchemas_entries (a b a' : APISchemas.t) (id : string)
    (x : APISchema.t) :
  AddSchemas schemaError a b = inr a' ->
  APISchemas.Schemas a' !! id = Some x ->
  APISchemas.Schemas a !! id = Some x
  ∨ exists k, APISchemas.Schemas b !! k = Some x.
Proof.
  unfold AddSchemas. intros Hadd Hx.
  destruct (addSchemaList_entries _ _ _ _ _ Hadd Hx) as [?|[k Hin]];
    [by left|].
  right. exists k. by apply elem_of_map_to_list.
Qed.

Variables (builtin_Schemas baseSchema : APISchemas.t).

(** The frame of [schemasForSubject] on the shared catalog. *)
Lemma schemasForSubject_frame (schemas : list APISchema.t) :
  Forall2 (cellAfter access) schemas
    (schemasForSubject builtin_Schemas schemaError baseSchema schemas
       access).1.
Proof.
  unfold schemasForSubject.
  destruct (newSchemas builtin_Schemas schemaError) as [err|r0];
    [apply Forall2_cellAfter_refl|].
  destruct (AddSchemas schemaError r0 baseSchema) as [err|r1];
    [apply Forall2_cellAfter_refl|].
  pose proof (filterSchemas_frame schemas r1) as Hf.
  by destruct (filterSchemas schemaError access schemas r1) as [? [?|?]].
Qed.

(** The entries of the catalog [schemasForSubject] returns: built-in
    schemas, schemas of [c.baseSchema], schemas without a resource, and
    the clones the loop body builds; the catalog carries the decision
    set. *)
Lemma schemasForSubject_entries (schemas schemas' : list APISchema.t)
    (result : APISchemas.t) :
  schemasForSubject builtin_Schemas schemaError baseSchema schemas access
  = (schemas', inr result) ->
  APISchemas.Attributes result = Some access
  ∧ forall id x, APISchemas.Schemas result !! id = Some x ->
      (exists k, APISchemas.Schemas builtin_Schemas !! k = Some x)
      ∨ (exists k, APISchemas.Schemas baseSchema !! k = Some x)
      ∨ exists s, s ∈ schemas
          ∧ ((APISchema.Resource s = "" ∧ x = s)
             ∨ (APISchema.Resource s ≠ "" ∧ x = (filterSchema access s).2
                ∧ noMethods x = false)).
Proof.
  unfold schemasForSubject, newSchemas.
  destruct (AddSchemas schemaError APISchemas.EmptyAPISchemas
              builtin_Schemas) as [err|r0] eqn:H0; [done|].
  destruct (AddSchemas schemaError r0 baseSchema) as [err|r1] eqn:H1;
    [done|].
  destruct (filterSchemas schemaError access schemas r1)
    as [rest [err|r2]] eqn:H2; [done|].
  intros [= _ <-]. cbn. split; [done|]. intros id x Hx.
  destruct (filterSchemas_entries _ _ _ _ _ _ H2 Hx) as [Hold|?];
    [|by right; right].
  destruct (AddSchemas_entries _ _ _ _ _ H1 Hold) as [Hold0|?];
    [|by right; left].
  destruct (AddSchemas_entries _ _ _ _ _ H0 Hold0) as [Hempty|?];
    [|by left].
  cbn in Hempty. by rewrite lookup_empty in Hempty.
Qed.

End FilterSchemasFacts.

(** *** The write of line 149 to the shared catalog *)

(** C2 (the base catalog is never mutated), on the code: with the core
    namespaces schema in the shared catalog and a decision set that has
    no grant and no visible namespace, one call of [schemasForSubject]
    leaves the shared schema with a collection-level GET it did not
    have; the write of line 149 precedes the clone of line 161. *)
Theorem base_catalog_written_before_clone :
  let after :=
    (schemasForSubject APISchemas.EmptyAPISchemas acceptAll
       APISchemas.EmptyAPISchemas [namespaces] noGrants).1 in
  APISchema.CollectionMethods namespaces = []
  ∧ after = [APISchema.with_CollectionMethods namespaces [MethodGet]]
  ∧ after ≠ [namespaces].
Proof.
  cbv zeta. split; [reflexivity|]. split; [vm_compute; reflexivity|].
  vm_compute. discriminate.
Qed.

(** C3 (determinism), on the code: with the same shared catalog,
    templates and decision set, the second call of [schemasForSubject]
    yields a namespaces entry with two collection-level GETs where the
    first call yielded one, because the first call wrote to the shared
    schema. *)
Theorem repeated_filter_results_differ :
  let first :=
    schemasForSubject APISchemas.EmptyAPISchemas acceptAll
      APISchemas.EmptyAPISchemas [namespaces] noGrants in
  let second :=
    schemasForSubject APISchemas.EmptyAPISchemas acceptAll
      APISchemas.EmptyAPISchemas first.1 noGrants in
  methodsOf first.2 "namespace" = Some ([], [MethodGet])
  ∧ methodsOf second.2 "namespace" = Some ([], [MethodGet; MethodGet]).
Proof. cbv zeta. split; vm_compute; reflexivity. Qed.

(** ** The cache timeout *)

Lemma Atoi_range (s : string) (n : Z) :
  Atoi s = inr n -> (minInt64 <= n <= maxInt64)%Z.
Proof.
  unfold Atoi.
  destruct (match s with
            | String "-" r => (true, r)
            | String "+" r => (false, r)
            | _ => (false, s)
            end) as [neg body].
  destruct body as [|a body]; [done|].
  destruct (digits 0 (String a body)) as [m|]; [|done].
  destruct ((minInt64 <=? _)%Z && (_ <=? maxInt64)%Z) eqn:Hr; [|done].
  intros [= <-]. apply andb_true_iff in Hr as [H1 H2].
  apply Z.leb_le in H1, H2. lia.
Qed.

Lemma wrap64_small (z : Z) : (minInt64 <= z <= maxInt64)%Z -> wrap64 z = z.
Proof.
  unfold wrap64, minInt64, maxInt64. intros H.
  rewrite Z.mod_small; lia.
Qed.

Lemma ttl_hours (n : Z) :
  (-2562047 <= n <= 2562047)%Z -> ttl n = (n * Hour)%Z.
Proof.
  intros H. unfold ttl. apply wrap64_small.
  unfold minInt64, maxInt64, Hour. lia.
Qed.

Example init_unset : init "" = (2160%Z, []).
Proof. reflexivity. Qed.

Example init_hours : init "24" = (24%Z, []).
Proof. reflexivity. Qed.

Example init_not_a_number :
  init "soon"
  = (2160%Z,
     ["CATTLE_CACHE_TIMEOUT string to int error: strconv.Atoi: parsing soon"]).
Proof. reflexivity. Qed.

Example ttl_overflow : ttl 3000000 = (-7646744073709551616)%Z.
Proof. reflexivity. Qed.

(** C9 as amended (the cache timeout).  [init] is total.  When the
    override is unset the timeout is the default of 2160 and nothing is
    logged; when it is set and [strconv.Atoi] refuses it the timeout is
    the default and one error line is logged; otherwise the timeout is
    the integer [strconv.Atoi] read, whatever its sign.  A timeout
    between -2562047 and 2562047 gives a time-to-live of that many
    hours. *)
Theorem cache_timeout_configuration (cacheTimeout : string) :
  ((cacheTimeout = "" ∧ init cacheTimeout = (defaultCacheTimeout, []))
   ∨ (cacheTimeout ≠ ""
      ∧ exists err, Atoi cacheTimeout = inl err
          ∧ init cacheTimeout
            = (defaultCacheTimeout,
               ["CATTLE_CACHE_TIMEOUT string to int error: " +:+ err]))
   ∨ (cacheTimeout ≠ ""
      ∧ exists num, Atoi cacheTimeout = inr num
          ∧ (minInt64 <= num <= maxInt64)%Z
          ∧ init cacheTimeout = (num, [])))
  ∧ defaultCacheTimeout = 2160%Z
  ∧ ((-2562047 <= (init cacheTimeout).1 <= 2562047)%Z ->
     ttl (init cacheTimeout).1 = ((init cacheTimeout).1 * Hour)%Z).
Proof.
  split; [|split; [reflexivity|apply ttl_hours]].
  unfold init. destruct (decide (cacheTimeout ≠ "")) as [Hne|He].
  - right. destruct (Atoi cacheTimeout) as [err|num] eqn:Ha.
    + left. split; [done|]. by exists err.
    + right. split; [done|]. exists num.
      split; [done|]. split; [by apply (Atoi_range cacheTimeout)|done].
  - left. split; [|done]. by destruct (decide (cacheTimeout = "")).
Qed.

Lemma cache_timeout_configuration_witness :
  init "24" = (24%Z, []) ∧ ttl (init "24").1 = (24 * Hour)%Z.
Proof.
  split; [reflexivity|].
  apply (cache_timeout_configuration "24"). vm_compute. split; discriminate.
Defined.

(** C9 as stated fails for a negative override: [strconv.Atoi] accepts
    "-5", so the timeout is -5, which is neither a non-negative number
    nor the default, and the time-to-live is minus five hours. *)
Lemma negative_override_kept :
  init "-5" = ((-5)%Z, [])
  ∧ ~ (0 <= (init "-5").1)%Z
  ∧ (init "-5").1 ≠ defaultCacheTimeout
  ∧ ttl (init "-5").1 = (-5 * Hour)%Z.
Proof. vm_compute. repeat split; try discriminate. intros H. by apply H. Qed.

(** ** Templates *)

Section TemplateFacts.

Variable c : Collection.

Lemma applyTemplateList_app st (l1 l2 : list (option Template.t)) :
  applyTemplateList c st (l1 ++ l2)
  = applyTemplateList c st l1 ≫= fun st => applyTemplateList c st l2.
Proof.
  revert st. induction l1 as [|t l1 IH]; intros st; cbn; [done|].
  destruct (applyTemplate c st t) as [st'|]; cbn; [apply IH|done].
Qed.

Lemma applyTemplateLists_concat st (ls : list (list (option Template.t))) :
  applyTemplateLists c st ls = applyTemplateList c st (concat ls).
Proof.
  revert st. induction ls as [|l ls IH]; intros st; cbn; [done|].
  rewrite applyTemplateList_app.
  destruct (applyTemplateList c st l) as [st'|]; cbn; [apply IH|done].
Qed.

Lemma applyTemplates_visited (schema : APISchema.t) :
  applyTemplates c schema = applyTemplateList c (schema, []) (visited c schema).
Proof.
  unfold applyTemplates, templatesFor, visited.
  rewrite applyTemplateLists_concat. cbn [concat]. by rewrite app_nil_r.
Qed.

(** One template: the formatter and the store before the hook runs, and
    the hook. *)
Lemma applyTemplate_Some schema invoked (t : Template.t) st' :
  applyTemplate c (schema, invoked) (Some t) = Some st' ->
  exists mid,
    APISchema.Formatter mid
    = formatterStep (APISchema.Formatter schema) (Some t)
    ∧ APISchema.Store mid
      = storeStep (default None (defaultStore c)) (APISchema.Store schema)
          (Some t)
    ∧ st' = match Template.Customize t with
            | Some hook => (hook mid, invoked ++ [hook])
            | None => (mid, invoked)
            end.
Proof.
  unfold applyTemplate, formatterStep, storeStep, supplied.
  set (schema1 := match APISchema.Formatter schema with
                  | None => _ | Some f => _ end).
  assert (HF : APISchema.Formatter schema1
               = match APISchema.Formatter schema, Template.Formatter t with
                 | None, f => f
                 | Some f, Some tf => Some (types.FormatterChain tf f)
                 | Some f, None => Some f
                 end).
  { unfold schema1. destruct (APISchema.Formatter schema) eqn:Hf;
      [destruct (Template.Formatter t)|]; cbn; done. }
  assert (HS : APISchema.Store schema1 = APISchema.Store schema).
  { unfold schema1. destruct (APISchema.Formatter schema);
      [destruct (Template.Formatter t)|]; done. }
  clearbody schema1. rewrite HS.
  destruct (APISchema.Store schema) as [st|] eqn:Hst.
  - cbn. intros Heq. exists schema1.
    split; [done|]. split; [by rewrite HS, ?Hst|].
    destruct (Template.Customize t); congruence.
  - destruct (Template.StoreFactory t) as [factory|].
    + destruct (defaultStore c) as [d|]; cbn; [|done].
      intros Heq. exists (APISchema.with_Store schema1 (factory d)).
      split; [done|]. split; [done|].
      destruct (Template.Customize t); congruence.
    + cbn. intros Heq.
      exists (APISchema.with_Store schema1 (Template.Store t)).
      split; [done|]. split; [done|].
      destruct (Template.Customize t); congruence.
Qed.

(** Every hook of a visited template is invoked, in the order of the
    visit, whatever the formatter and the store of the schema are. *)
Lemma applyTemplateList_invoked (l : list (option Template.t))
    schema invoked schema' invoked' :
  applyTemplateList c (schema, invoked) l = Some (schema', invoked') ->
  invoked' = invoked ++ omap hookOf l.
Proof.
  revert schema invoked. induction l as [|t l IH]; intros schema invoked;
    cbn [applyTemplateList].
  - intros [= _ <-]. by rewrite app_nil_r.
  - destruct (applyTemplate c (schema, invoked) t) as [[s1 i1]|] eqn:Hone;
      cbn; [|done].
    intros Hrest. apply IH in Hrest as ->.
    destruct t as [t|].
    + apply applyTemplate_Some in Hone as (mid & _ & _ & Hst).
      cbn. unfold hookOf at 2. cbn.
      destruct (Template.Customize t) as [hook|]; injection Hst as -> ->.
      * by rewrite <- app_assoc.
      * done.
    + cbn in Hone. injection Hone as -> ->. done.
Qed.

(** With a default store that can be read, no template makes
    [applyTemplates] panic. *)
Lemma applyTemplateList_total (l : list (option Template.t)) st :
  is_Some (defaultStore c) -> is_Some (applyTemplateList c st l).
Proof.
  intros [d Hd]. revert st. induction l as [|t l IH]; intros st;
    cbn [applyTemplateList]; [done|].
  assert (is_Some (applyTemplate c st t)) as [st' ->]; [|apply IH].
  destruct t as [t|]; [|done]. destruct st as [schema invoked].
  unfold applyTemplate. rewrite Hd.
  set (schema1 := match APISchema.Formatter schema with
                  | None => _ | Some f => _ end).
  destruct (APISchema.Store schema1); [|destruct (Template.StoreFactory t)];
    cbn; destruct (Template.Customize t); done.
Qed.

(** The formatter and the store after the visit, when the hooks leave
    them alone. *)
Lemma applyTemplateList_fields (l : list (option Template.t))
    schema invoked schema' invoked' :
  hooksKeep l ->
  applyTemplateList c (schema, invoked) l = Some (schema', invoked') ->
  APISchema.Formatter schema'
  = foldl formatterStep (APISchema.Formatter schema) l
  ∧ APISchema.Store schema'
    = foldl (storeStep (default None (defaultStore c)))
        (APISchema.Store schema) l.
Proof.
  revert schema invoked. induction l as [|t l IH]; intros schema invoked Hk;
    cbn [applyTemplateList foldl].
  - by intros [= <- _].
  - destruct (applyTemplate c (schema, invoked) t) as [[s1 i1]|] eqn:Hone;
      cbn; [|done].
    intros Hrest. apply IH in Hrest as [-> ->].
    2:{ intros t0 hook Hin. apply Hk, elem_of_cons. by right. }
    destruct t as [t|].
    + apply applyTemplate_Some in Hone as (mid & HF & HS & Hst).
      destruct (Template.Customize t) as [hook|] eqn:Hh;
        injection Hst as -> ->.
      * destruct (Hk t hook) with (x := mid) as [-> ->];
          [apply elem_of_cons; by left|done|].
        by rewrite HF, HS.
      * by rewrite HF, HS.
    + cbn in Hone. injection Hone as -> ->. done.
Qed.

End TemplateFacts.

Lemma unset_fields_id (schema : APISchema.t) :
  APISchema.Formatter schema = None -> APISchema.Store schema = None ->
  APISchema.with_Store (APISchema.with_Formatter schema None) None = schema.
Proof. destruct schema; cbn; intros -> ->; reflexivity. Qed.

(** C7 (template precedence).  [applyTemplates] visits the exact
    templates, then the group/kind templates, then the wildcard ones.
    Whenever it returns, the hooks invoked are the hooks of all visited
    templates, in that order; and when the hooks leave the formatter and
    the store alone, the formatter is the one obtained by assigning the
    first formatter met and wrapping it in each later one, and the store
    is the first one supplied, by a template's store or by its factory
    applied to the store of the first wildcard template.  It returns
    whenever that default store can be read.  With one exact template
    carrying only a hook and one wildcard template carrying a formatter
    and a store, on a schema with neither, the hook is invoked and the
    schema ends with the wildcard's formatter and store. *)
Theorem template_precedence (c : Collection) (schema : APISchema.t) :
  applyTemplates c schema
  = applyTemplateList c (schema, []) (visited c schema)
  ∧ (forall schema' invoked,
       applyTemplates c schema = Some (schema', invoked) ->
       invoked = omap hookOf (visited c schema)
       ∧ (hooksKeep (visited c schema) ->
          APISchema.Formatter schema'
          = foldl formatterStep (APISchema.Formatter schema)
              (visited c schema)
          ∧ APISchema.Store schema'
            = foldl (storeStep (default None (defaultStore c)))
                (APISchema.Store schema) (visited c schema)))
  ∧ (forall t rest, templates c !! "" = Some (Some t :: rest) ->
       defaultStore c = Some (Template.Store t))
  ∧ (is_Some (defaultStore c) -> is_Some (applyTemplates c schema))
  ∧ (forall hook F S,
       templates c !! APISchema.ID schema
       = Some [Some {| Template.Customize := Some hook;
                       Template.Formatter := None;
                       Template.Store := None;
                       Template.StoreFactory := None |}] ->
       templates c !! (APISchema.Group schema +:+ "/"
                       +:+ APISchema.Kind schema) = None ->
       templates c !! ""
       = Some [Some {| Template.Customize := None;
                       Template.Formatter := Some F;
                       Template.Store := Some S;
                       Template.StoreFactory := None |}] ->
       APISchema.Formatter schema = None ->
       APISchema.Store schema = None ->
       exists final,
         applyTemplates c schema = Some (final, [hook])
         ∧ (APISchema.Formatter (hook schema) = None ->
            APISchema.Formatter final = Some F)
         ∧ (APISchema.Store (hook schema) = None ->
            APISchema.Store final = Some S)).
Proof.
  split; [apply applyTemplates_visited|].
  split; [|split; [|split]].
  - intros schema' invoked. rewrite applyTemplates_visited. intros Happ.
    split.
    + by apply applyTemplateList_invoked in Happ.
    + intros Hk. by eapply applyTemplateList_fields.
  - intros t rest Hw. unfold defaultStore. by rewrite Hw.
  - intros Hd. rewrite applyTemplates_visited.
    by apply applyTemplateList_total.
  - intros hook F S Hexact Hgk Hwild HF HS.
    rewrite applyTemplates_visited. unfold visited.
    rewrite Hexact, Hgk, Hwild. cbn. rewrite HF. cbn. rewrite HS. cbn.
    rewrite (unset_fields_id schema HF HS).
    destruct (APISchema.Formatter (hook schema)) as [g|] eqn:Hg;
      destruct (APISchema.Store (hook schema)) as [x|] eqn:Hx;
      cbn; rewrite ?Hx; cbn; eexists; (split; [reflexivity|]);
      split; intros; by try done.
Qed.

Lemma template_precedence_witness :
  exists final,
    applyTemplates templated pods = Some (final, [markHooked])
    ∧ APISchema.Formatter final = Some (types.FormatterFunc "links")
    ∧ APISchema.Store final = Some (types.StoreHandle "proxy").
Proof.
  destruct (template_precedence templated pods)
    as (_ & _ & _ & _ & Hscenario).
  destruct (Hscenario markHooked (types.FormatterFunc "links")
              (types.StoreHandle "proxy"))
    as (final & Happ & HF & HS); try reflexivity.
  exists final. split; [exact Happ|].
  split; [apply HF|apply HS]; reflexivity.
Defined.

(** ** The cache indexes *)

Section ExpireCacheFacts.

Context {V : Type}.
Implicit Types (m : gmap string (V * Z)) (key : string) (now : Z).

Lemma Get_Some now key m v :
  (expirecache.Get now key m).2 = Some v ->
  (expirecache.Get now key m).1 = m
  ∧ exists e, m !! key = Some (v, e) ∧ (now <= e)%Z.
Proof.
  unfold expirecache.Get. destruct (m !! key) as [[v' e]|] eqn:Hm; [|done].
  unfold expirecache.live. cbn. destruct (now <=? e)%Z eqn:Hl; [|done].
  cbn. intros [= ->]. split; [done|]. exists e. split; [done|].
  by apply Z.leb_le.
Qed.

Lemma Get_live now key m v e :
  m !! key = Some (v, e) -> (now <= e)%Z ->
  expirecache.Get now key m = (m, Some v).
Proof.
  intros Hm Hl. unfold expirecache.Get, expirecache.live. rewrite Hm. cbn.
  apply Z.leb_le in Hl. by rewrite Hl.
Qed.

Lemma Get_None now key m :
  (expirecache.Get now key m).2 = None ->
  (expirecache.Get now key m).1 = delete key m
  ∧ forall v e, m !! key = Some (v, e) -> (e < now)%Z.
Proof.
  unfold expirecache.Get. destruct (m !! key) as [[v' e]|] eqn:Hm.
  - unfold expirecache.live. cbn. destruct (now <=? e)%Z eqn:Hl; [done|].
    cbn. intros _. split; [done|]. intros v e0 [= _ <-].
    apply Z.leb_gt in Hl. lia.
  - cbn. intros _. split; [|done]. symmetry. by apply delete_id.
Qed.

Lemma Get_subseteq now key m : (expirecache.Get now key m).1 ⊆ m.
Proof.
  unfold expirecache.Get. destruct (m !! key) as [entry|]; [|done].
  destruct (expirecache.live now entry); [done|]. apply delete_subseteq.
Qed.

Lemma Get_lookup_ne now key key' m :
  key ≠ key' -> (expirecache.Get now key m).1 !! key' = m !! key'.
Proof.
  intros Hne. unfold expirecache.Get.
  destruct (m !! key) as [entry|]; [|done].
  destruct (expirecache.live now entry); [done|]. by apply lookup_delete_ne.
Qed.

(** A lookup drops dead entries only. *)
Lemma Get_lookup_live now key key' m v e :
  (now <= e)%Z ->
  (expirecache.Get now key m).1 !! key' = Some (v, e)
  <-> m !! key' = Some (v, e).
Proof.
  intros Hl. destruct (decide (key = key')) as [<-|Hne].
  2:{ by rewrite Get_lookup_ne. }
  destruct (expirecache.Get now key m).2 as [v'|] eqn:Hg.
  - apply Get_Some in Hg as [-> _]. done.
  - apply Get_None in Hg as [-> Hdead]. rewrite lookup_delete_eq.
    split; [done|]. intros Hm. apply Hdead in Hm. lia.
Qed.

Lemma Get_delete_ne now key key' m :
  key ≠ key' ->
  (expirecache.Get now key (delete key' m)).2 = (expirecache.Get now key m).2.
Proof.
  intros Hne. unfold expirecache.Get. rewrite lookup_delete_ne by done.
  destruct (m !! key) as [entry|]; [|done].
  by destruct (expirecache.live now entry).
Qed.

End ExpireCacheFacts.

Section CacheFacts.

Variable builtin_Schemas : APISchemas.t.
Variable schemaError : APISchemas.t -> APISchema.t -> option error.
Variable CacheTimeout : Z.

Local Abbreviation Schemas' :=
  (Schemas builtin_Schemas schemaError CacheTimeout).
Local Abbreviation addToCache' := (addToCache CacheTimeout).
Local Abbreviation schemasForSubject' :=
  (schemasForSubject builtin_Schemas schemaError).

(** The principal has no live entry, or its entry names the current
    decision identity: [removeOldRecords] purges nothing. *)
Lemma removeOldRecords_fresh now access user c :
  (forall id, (expirecache.Get now user (userCache c)).2 = Some id ->
     id = AccessSet.ID access) ->
  removeOldRecords now access user c
  = with_userCache c (expirecache.Get now user (userCache c)).1.
Proof.
  intros Hcur. unfold removeOldRecords.
  destruct (expirecache.Get now user (userCache c)) as [uc [id|]]; [|done].
  cbn in Hcur. rewrite decide_False; [done|]. intros Hne. by apply Hne, Hcur.
Qed.

(** The principal has a live entry under another decision identity:
    the record of that identity is purged from the primary and expiry
    indexes, the engine is told, and the principal's entry is removed. *)
Lemma removeOldRecords_stale now access user c currentId e :
  userCache c !! user = Some (currentId, e) -> (now <= e)%Z ->
  currentId ≠ AccessSet.ID access ->
  removeOldRecords now access user c
  = {| baseSchema := baseSchema c; schemas := schemas c;
       templates := templates c;
       cache := delete currentId (cache c);
       userCache := delete user (userCache c);
       userTimeoutCache := delete currentId (userTimeoutCache c);
       purged := purged c ++ [currentId] |}.
Proof.
  intros Hu Hl Hne. unfold removeOldRecords.
  rewrite (Get_live _ _ _ _ _ Hu Hl). by rewrite decide_True.
Qed.

Lemma removeOldRecords_catalog now access user c :
  baseSchema (removeOldRecords now access user c) = baseSchema c
  ∧ schemas (removeOldRecords now access user c) = schemas c.
Proof.
  unfold removeOldRecords.
  destruct (expirecache.Get now user (userCache c)) as [uc [id|]]; [|done].
  by destruct (decide _).
Qed.

Lemma removeOldRecords_subseteq now access user c :
  cache (removeOldRecords now access user c) ⊆ cache c
  ∧ userCache (removeOldRecords now access user c) ⊆ userCache c
  ∧ userTimeoutCache (removeOldRecords now access user c)
    ⊆ userTimeoutCache c.
Proof.
  unfold removeOldRecords.
  pose proof (Get_subseteq now user (userCache c)) as Hsub.
  destruct (expirecache.Get now user (userCache c)) as [uc [id|]];
    cbn [fst] in Hsub; [|done].
  destruct (decide _); [|done]. cbn.
  split; [apply delete_subseteq|].
  split; [|apply delete_subseteq].
  etrans; [apply delete_subseteq|done].
Qed.

(** The three ways a call of [Schemas] ends: a hit, a failed
    computation, a computation that is cached. *)
Lemma Schemas_cases (AccessFor : string -> AccessSet.t) (k : Clock) user c :
  let access := AccessFor user in
  let c1 := removeOldRecords (userGetAt k) access user c in
  let g := expirecache.Get (cacheGetAt k) (AccessSet.ID access) (cache c1) in
  (exists cat, g.2 = Some cat
     ∧ Schemas' AccessFor k user c = (with_cache c1 g.1, inr cat))
  ∨ (g.2 = None
     ∧ exists base err,
         schemasForSubject' (baseSchema c) (schemas c) access = (base, inl err)
         ∧ Schemas' AccessFor k user c
           = (with_schemas (with_cache c1 g.1) base, inl err))
  ∨ (g.2 = None
     ∧ exists base cat,
         schemasForSubject' (baseSchema c) (schemas c) access = (base, inr cat)
         ∧ Schemas' AccessFor k user c
           = (addToCache' k access user cat
                (with_schemas (with_cache c1 g.1) base), inr cat)).
Proof.
  intros access c1 g. unfold Schemas. fold access. fold c1. fold g.
  destruct (removeOldRecords_catalog (userGetAt k) access user c)
    as [Hb Hs].
  fold c1 in Hb, Hs.
  destruct g as [ca [cat|]]; cbn [fst snd with_cache baseSchema schemas].
  - left. by exists cat.
  - right. rewrite Hb, Hs.
    destruct (schemasForSubject' (baseSchema c) (schemas c) access)
      as [base [err|cat]].
    + left. split; [done|]. by exists base, err.
    + right. split; [done|]. by exists base, cat.
Qed.

End CacheFacts.

Section CacheClaims.

Variable builtin_Schemas : APISchemas.t.
Variable schemaError : APISchemas.t -> APISchema.t -> option error.
Variable CacheTimeout : Z.

Local Abbreviation Schemas' :=
  (Schemas builtin_Schemas schemaError CacheTimeout).
Local Abbreviation schemasForSubject' :=
  (schemasForSubject builtin_Schemas schemaError).

(** C10 as amended (a failed computation is not cached).  [Schemas]
    returns an error exactly when the lookup under the current decision
    identity misses and the computation returns that error; then no
    index gains an entry: each index after the call is included in the
    index before it (the staleness purge that ran before the computation
    may have removed entries), and the primary index has no record
    under the current decision identity. *)
Theorem failed_computation_adds_nothing (AccessFor : string -> AccessSet.t)
    (k : Clock) (user : string) (c : Collection) (err : error) :
  let access := AccessFor user in
  let c' := (Schemas' AccessFor k user c).1 in
  ((Schemas' AccessFor k user c).2 = inl err
   <-> (expirecache.Get (cacheGetAt k) (AccessSet.ID access)
          (cache (removeOldRecords (userGetAt k) access user c))).2 = None
       ∧ exists base,
           schemasForSubject' (baseSchema c) (schemas c) access
           = (base, inl err))
  ∧ ((Schemas' AccessFor k user c).2 = inl err ->
     cache c' ⊆ cache c
     ∧ userCache c' ⊆ userCache c
     ∧ userTimeoutCache c' ⊆ userTimeoutCache c
     ∧ cache c' !! AccessSet.ID access = None).
Proof.
  intros access c'. unfold c'.
  destruct (removeOldRecords_subseteq (userGetAt k) access user c)
    as (Hc & Hu & Ht).
  destruct (Schemas_cases builtin_Schemas schemaError CacheTimeout
              AccessFor k user c)
    as [(cat & Hg & ->)|[(Hg & base & err' & Hcomp & ->)
                        |(Hg & base & cat & Hcomp & ->)]];
    fold access in Hg |- *; cbn [fst snd].
  - split; [|done]. split; [done|]. intros [Hmiss _]. congruence.
  - fold access in Hcomp. split.
    + split.
      * intros [= ->]. split; [done|]. by exists base.
      * intros [_ (base' & Hcomp')]. congruence.
    + intros _. cbn. split; [|split; [done|split; [done|]]].
      * etrans; [apply Get_subseteq|done].
      * apply Get_None in Hg as [-> _]. apply lookup_delete_eq.
  - fold access in Hcomp. split; [|done]. split; [done|].
    intros [_ (base' & Hcomp')]. congruence.
Qed.

(** C1 as amended (one record per principal).  When the principal index
    holds a live entry for [P] under [D1] and the decision identity of
    [P] is now another one, [D2], a call of [Schemas] for [P] leaves no
    record under [D1] in the primary index and in the expiry index and
    tells the engine to purge [D1].  The principal index then holds at
    most one entry for [P], and that entry names [D2]: it holds one when
    no live record under [D2] was cached and the computation succeeded;
    it holds none when a live record under [D2] was already cached,
    which is returned as it is, or when the computation failed. *)
Theorem one_record_per_principal (AccessFor : string -> AccessSet.t)
    (k : Clock) (P D1 : string) (e1 : Z) (c : Collection) :
  userCache c !! P = Some (D1, e1) -> (userGetAt k <= e1)%Z ->
  AccessSet.ID (AccessFor P) ≠ D1 ->
  let D2 := AccessSet.ID (AccessFor P) in
  let hit := (expirecache.Get (cacheGetAt k) D2 (cache c)).2 in
  let c' := (Schemas' AccessFor k P c).1 in
  let r := (Schemas' AccessFor k P c).2 in
  cache c' !! D1 = None
  ∧ userTimeoutCache c' !! D1 = None
  ∧ purged c' = purged c ++ [D1]
  ∧ (forall entry, userCache c' !! P = Some entry ->
       entry = (D2, (userAddAt k + ttl CacheTimeout)%Z))
  ∧ (forall cat, hit = Some cat -> r = inr cat ∧ userCache c' !! P = None)
  ∧ (hit = None ->
     match r with
     | inr cat =>
         userCache c' !! P = Some (D2, (userAddAt k + ttl CacheTimeout)%Z)
         ∧ cache c' !! D2 = Some (cat, (cacheAddAt k + ttl CacheTimeout)%Z)
     | inl _ => userCache c' !! P = None
     end).
Proof.
  intros Hu Hl Hne D2 hit c' r. unfold c', r, hit.
  pose proof (removeOldRecords_stale (userGetAt k) (AccessFor P) P c D1 e1
                Hu Hl (not_eq_sym Hne)) as Hrm.
  destruct (Schemas_cases builtin_Schemas schemaError CacheTimeout
              AccessFor k P c)
    as [(cat & Hg & ->)|[(Hg & base & err' & Hcomp & ->)
                        |(Hg & base & cat & Hcomp & ->)]];
    rewrite Hrm in Hg |- *; cbn [cache] in Hg;
    fold D2 in Hg |- *; rewrite Get_delete_ne in Hg by done;
    cbn; rewrite ?Hg.
  - rewrite Get_lookup_ne by done. rewrite !lookup_delete_eq.
    repeat split; try done; intros; by simplify_eq.
  - rewrite Get_lookup_ne by done. rewrite !lookup_delete_eq.
    repeat split; done.
  - unfold expirecache.Add. rewrite !lookup_insert_eq.
    rewrite !lookup_insert_ne by done.
    rewrite Get_lookup_ne by done. rewrite !lookup_delete_eq.
    repeat split; try done; intros; by simplify_eq.
Qed.

End CacheClaims.

(** *** Concrete runs *)

Lemma one_record_per_principal_witness :
  let run := Schemas APISchemas.EmptyAPISchemas acceptAll defaultCacheTimeout
               engineAfter (instant 2) "alice" aliceServed in
  principalIndex aliceServed "alice" = Some "d1"
  ∧ cache run.1 !! "d1" = None
  ∧ userTimeoutCache run.1 !! "d1" = None
  ∧ purged run.1 = ["d1"]
  ∧ principalIndex run.1 "alice" = Some "d2".
Proof.
  cbv zeta.
  destruct (one_record_per_principal APISchemas.EmptyAPISchemas acceptAll
              defaultCacheTimeout engineAfter (instant 2) "alice" "d1"
              (0 + ttl defaultCacheTimeout)%Z aliceServed)
    as (Hc & Ht & Hp & _ & _ & Hmiss);
    [vm_compute; reflexivity | vm_compute; discriminate
    | vm_compute; discriminate |].
  split; [vm_compute; reflexivity|].
  split; [exact Hc|]. split; [exact Ht|]. split; [exact Hp|].
  specialize (Hmiss eq_refl). unfold principalIndex.
  destruct (Schemas _ _ _ _ _ _ _).2 as [err|cat] eqn:Hr.
  - vm_compute in Hr. discriminate Hr.
  - destruct Hmiss as [-> _]. reflexivity.
Defined.

(** C1 as stated fails when another principal already holds a record
    under [D2]: alice is cached under d1 and bob under d2; once alice's
    decision identity is d2, [Schemas] returns bob's record and leaves
    the principal index without any entry for alice. *)
Lemma shared_identity_leaves_no_entry :
  let run := Schemas APISchemas.EmptyAPISchemas acceptAll defaultCacheTimeout
               engineAfter (instant 2) "alice" bobServed in
  principalIndex bobServed "alice" = Some "d1"
  ∧ principalIndex bobServed "bob" = Some "d2"
  ∧ cached bobServed "d2" = true
  ∧ AccessSet.ID (engineAfter "alice") = "d2"
  ∧ (exists cat, run.2 = inr cat)
  ∧ userCache run.1 !! "alice" = None
  ∧ ~ (exists e, userCache run.1 !! "alice" = Some ("d2", e)).
Proof.
  cbv zeta.
  assert (Hnone : userCache
            (Schemas APISchemas.EmptyAPISchemas acceptAll defaultCacheTimeout
               engineAfter (instant 2) "alice" bobServed).1 !! "alice" = None)
    by (vm_compute; reflexivity).
  do 4 (split; [vm_compute; reflexivity|]).
  split; [|split].
  - destruct (Schemas _ _ _ _ _ _ _).2 as [err|cat] eqn:Hr.
    + vm_compute in Hr. discriminate Hr.
    + by exists cat.
  - exact Hnone.
  - intros [e He]. rewrite Hnone in He. discriminate He.
Qed.

Lemma failed_computation_adds_nothing_witness :
  let run := Schemas APISchemas.EmptyAPISchemas rejectDuplicate
               defaultCacheTimeout engineAfter (instant 2) "alice" crowded in
  run.2 = inl "duplicate schema"
  ∧ cache run.1 ⊆ cache crowded
  ∧ userCache run.1 ⊆ userCache crowded
  ∧ userTimeoutCache run.1 ⊆ userTimeoutCache crowded
  ∧ cache run.1 !! "d2" = None.
Proof.
  cbv zeta.
  assert (Herr : (Schemas APISchemas.EmptyAPISchemas rejectDuplicate
                    defaultCacheTimeout engineAfter (instant 2) "alice" crowded).2
                 = inl "duplicate schema") by (vm_compute; reflexivity).
  split; [exact Herr|].
  apply (failed_computation_adds_nothing APISchemas.EmptyAPISchemas
           rejectDuplicate defaultCacheTimeout engineAfter (instant 2) "alice" crowded
           "duplicate schema").
  exact Herr.
Defined.

(** C10 as stated fails when the principal's cached record is stale:
    alice is cached under d1; her decision identity becomes d2 and the
    computation for d2 fails; the call returns the error, and the
    staleness purge that ran first has removed d1 from the primary and
    the expiry index and alice from the principal index. *)
Lemma failed_computation_after_purge :
  let run := Schemas APISchemas.EmptyAPISchemas rejectDuplicate
               defaultCacheTimeout engineAfter (instant 2) "alice" crowded in
  run.2 = inl "duplicate schema"
  ∧ cached crowded "d1" = true ∧ cached run.1 "d1" = false
  ∧ principalIndex crowded "alice" = Some "d1"
  ∧ principalIndex run.1 "alice" = None
  ∧ (Timeout <$> userTimeoutCache crowded !! "d1")
    = Some (0 + ttl defaultCacheTimeout)%Z
  ∧ userTimeoutCache run.1 !! "d1" = None
  ∧ cache run.1 ≠ cache crowded.
Proof.
  cbv zeta. repeat split; try (vm_compute; reflexivity).
  intros Heq.
  assert (H : cached
            (Schemas APISchemas.EmptyAPISchemas rejectDuplicate
               defaultCacheTimeout engineAfter (instant 2) "alice" crowded).1 "d1"
          = cached crowded "d1").
  { unfold cached. by rewrite Heq. }
  vm_compute in H. discriminate H.
Qed.

(** *** The primary index and the expiry index *)




Section Lockstep.

Variable builtin_Schemas : APISchemas.t.
Variable schemaError : APISchemas.t -> APISchema.t -> option error.
Variable CacheTimeout : Z.






End Lockstep.






(** ** Further properties of the cache indexes *)

Lemma Get_dead {V : Type} (now : Z) (key : string) (m : gmap string (V * Z)) :
  (forall v e, m !! key = Some (v, e) -> (e < now)%Z) ->
  (expirecache.Get now key m).2 = None.
Proof.
  intros Hdead. unfold expirecache.Get, expirecache.live.
  destruct (m !! key) as [[v e]|] eqn:Hm; [|done]. cbn.
  specialize (Hdead v e eq_refl).
  destruct (now <=? e)%Z eqn:Hl; [|done]. apply Z.leb_le in Hl. lia.
Qed.

Lemma with_userCache_id (c : Collection) : with_userCache c (userCache c) = c.
Proof. by destruct c. Qed.

Lemma with_cache_id (c : Collection) : with_cache c (cache c) = c.
Proof. by destruct c. Qed.

Section CacheMore.

Variable builtin_Schemas : APISchemas.t.
Variable schemaError : APISchemas.t -> APISchema.t -> option error.
Variable CacheTimeout : Z.

Local Abbreviation Schemas' :=
  (Schemas builtin_Schemas schemaError CacheTimeout).
Local Abbreviation schemasForSubject' :=
  (schemasForSubject builtin_Schemas schemaError).

(** A live principal entry under the current identity and a live record
    under it: the call is a hit and changes nothing. *)
Lemma Schemas_hit (AccessFor : string -> AccessSet.t) (k : Clock)
    user c cat e e' :
  userCache c !! user = Some (AccessSet.ID (AccessFor user), e) ->
  (userGetAt k <= e)%Z ->
  cache c !! AccessSet.ID (AccessFor user) = Some (cat, e') ->
  (cacheGetAt k <= e')%Z ->
  Schemas' AccessFor k user c = (c, inr cat).
Proof.
  intros Hu He Hc He'. unfold Schemas, removeOldRecords.
  rewrite (Get_live _ _ _ _ _ Hu He). rewrite decide_False by auto.
  rewrite with_userCache_id, (Get_live _ _ _ _ _ Hc He').
  by rewrite with_cache_id.
Qed.

(** What a miss followed by a successful computation leaves under the
    current identity and the principal. *)
Lemma Schemas_miss_entries (AccessFor : string -> AccessSet.t)
    (k : Clock) user c c1 cat :
  (expirecache.Get (cacheGetAt k) (AccessSet.ID (AccessFor user))
     (cache (removeOldRecords (userGetAt k) (AccessFor user) user c))).2
  = None ->
  Schemas' AccessFor k user c = (c1, inr cat) ->
  cache c1 !! AccessSet.ID (AccessFor user)
  = Some (cat, (cacheAddAt k + ttl CacheTimeout)%Z)
  ∧ userCache c1 !! user
    = Some (AccessSet.ID (AccessFor user),
            (userAddAt k + ttl CacheTimeout)%Z)
  ∧ userTimeoutCache c1 !! AccessSet.ID (AccessFor user)
    = Some {| Timeout := (timeNow k + ttl CacheTimeout)%Z;
              UserName := user |}.
Proof.
  intros Hmiss.
  destruct (Schemas_cases builtin_Schemas schemaError CacheTimeout
              AccessFor k user c)
    as [(cat' & Hg & ->)|[(Hg & base & err' & Hcomp & ->)
                         |(Hg & base & cat' & Hcomp & ->)]].
  - congruence.
  - done.
  - intros [= <- <-]. unfold addToCache, expirecache.Add. cbn.
    by rewrite !lookup_insert_eq.
Qed.

(** The principal has no live entry under another identity and the
    record under the current identity is dead or absent: the call
    computes, and tells the engine nothing. *)
Lemma Schemas_dead (AccessFor : string -> AccessSet.t) (k : Clock) user c :
  (forall id e, userCache c !! user = Some (id, e) ->
     id = AccessSet.ID (AccessFor user) ∨ (e < userGetAt k)%Z) ->
  (forall v e, cache c !! AccessSet.ID (AccessFor user) = Some (v, e) ->
     (e < cacheGetAt k)%Z) ->
  (Schemas' AccessFor k user c).2
  = (schemasForSubject' (baseSchema c) (schemas c) (AccessFor user)).2
  ∧ purged (Schemas' AccessFor k user c).1 = purged c.
Proof.
  intros Hu Hc.
  assert (Hrm : removeOldRecords (userGetAt k) (AccessFor user) user c
                = with_userCache c
                    (expirecache.Get (userGetAt k) user (userCache c)).1).
  { apply removeOldRecords_fresh. intros id Hg.
    apply Get_Some in Hg as [_ (e & Hl & He)].
    destruct (Hu id e Hl) as [?|?]; [done|lia]. }
  destruct (Schemas_cases builtin_Schemas schemaError CacheTimeout
              AccessFor k user c)
    as [(cat' & Hg & ->)|[(Hg & base & err' & Hcomp & ->)
                         |(Hg & base & cat' & Hcomp & ->)]];
    rewrite Hrm in *; cbn [cache with_userCache] in *.
  - by rewrite (Get_dead (cacheGetAt k) _ (cache c) Hc) in Hg.
  - by rewrite Hcomp.
  - by rewrite Hcomp.
Qed.

(** X1.  After a call that missed and cached its result, any call for
    the same principal under the same decision identity whose lookups
    happen no later than the expiry of the record, that is the reading
    of the clock inside [c.cache.Add] plus the time-to-live, returns the
    cached catalog and leaves the collection as it is: nothing is
    computed, and the expiry is not pushed back by the read. *)
Theorem cached_catalog_served_until_expiry
    (AccessFor AccessFor' : string -> AccessSet.t) (k k' : Clock)
    (user : string) (c c1 : Collection) (cat : APISchemas.t) :
  (expirecache.Get (cacheGetAt k) (AccessSet.ID (AccessFor user))
     (cache (removeOldRecords (userGetAt k) (AccessFor user) user c))).2
  = None ->
  Schemas' AccessFor k user c = (c1, inr cat) ->
  AccessSet.ID (AccessFor' user) = AccessSet.ID (AccessFor user) ->
  ticking k -> ticking k' ->
  (cacheGetAt k' <= cacheAddAt k + ttl CacheTimeout)%Z ->
  Schemas' AccessFor' k' user c1 = (c1, inr cat).
Proof.
  intros Hmiss Hrun Hid (_ & _ & Hk & _) (Hk' & _) Hwin.
  destruct (Schemas_miss_entries _ _ _ _ _ _ Hmiss Hrun) as (Hc & Hu & _).
  rewrite <- Hid in Hc, Hu.
  eapply Schemas_hit; [exact Hu|lia|exact Hc|lia].
Qed.

(** X2.  Once the record cached by a call has expired, that is after
    the reading of the clock inside [c.cache.Add] plus the time-to-live,
    a call for the same principal under the same decision identity runs
    the computation again and returns what it returns, and the engine
    is not told to purge anything. *)
Theorem expired_catalog_recomputed
    (AccessFor AccessFor' : string -> AccessSet.t) (k k' : Clock)
    (user : string) (c c1 : Collection) (cat : APISchemas.t) :
  (expirecache.Get (cacheGetAt k) (AccessSet.ID (AccessFor user))
     (cache (removeOldRecords (userGetAt k) (AccessFor user) user c))).2
  = None ->
  Schemas' AccessFor k user c = (c1, inr cat) ->
  AccessSet.ID (AccessFor' user) = AccessSet.ID (AccessFor user) ->
  (cacheAddAt k + ttl CacheTimeout < cacheGetAt k')%Z ->
  (Schemas' AccessFor' k' user c1).2
  = (schemasForSubject' (baseSchema c1) (schemas c1) (AccessFor' user)).2
  ∧ purged (Schemas' AccessFor' k' user c1).1 = purged c1.
Proof.
  intros Hmiss Hrun Hid Hlate.
  destruct (Schemas_miss_entries _ _ _ _ _ _ Hmiss Hrun) as (Hc & Hu & _).
  apply Schemas_dead.
  - intros id e. rewrite Hu, Hid. intros [= <- _]. by left.
  - intros v e. rewrite Hid, Hc. intros [= _ <-]. lia.
Qed.

End CacheMore.

Section CacheFrame.

Variable builtin_Schemas : APISchemas.t.
Variable schemaError : APISchemas.t -> APISchema.t -> option error.
Variable CacheTimeout : Z.

Local Abbreviation Schemas' :=
  (Schemas builtin_Schemas schemaError CacheTimeout).

(** What [removeOldRecords] leaves of the indexes: the entries of other
    principals, the records under identities the principal is not
    indexed under, and at most one more purge notice. *)
Lemma removeOldRecords_frame now access user c :
  let c1 := removeOldRecords now access user c in
  (forall u, u ≠ user -> userCache c1 !! u = userCache c !! u)
  ∧ (forall k, (forall e, userCache c !! user ≠ Some (k, e)) ->
       cache c1 !! k = cache c !! k
       ∧ userTimeoutCache c1 !! k = userTimeoutCache c !! k)
  ∧ templates c1 = templates c
  ∧ (purged c1 = purged c
     ∨ exists old e, userCache c !! user = Some (old, e) ∧ (now <= e)%Z
         ∧ old ≠ AccessSet.ID access ∧ purged c1 = purged c ++ [old]).
Proof.
  cbv zeta. unfold removeOldRecords.
  pose proof (fun u => Get_lookup_ne now user u (userCache c)) as Hne.
  destruct (expirecache.Get now user (userCache c)) as [uc [id|]] eqn:Hg;
    cbn [fst] in Hne.
  - pose proof (Get_Some now user (userCache c) id) as Hs.
    rewrite Hg in Hs. destruct (Hs eq_refl) as [Huc (e & Hu & He)].
    cbn [fst] in Huc. subst uc.
    destruct (decide (id ≠ AccessSet.ID access)) as [Hstale|Hsame]; cbn.
    + unfold expirecache.Remove. split; [|split; [|split]].
      * intros u Hu'. by rewrite lookup_delete_ne.
      * intros k Hk. assert (id ≠ k) by (intros ->; by apply (Hk e)).
        by rewrite !lookup_delete_ne.
      * done.
      * right. by exists id, e.
    + split; [done|]. split; [done|]. split; [done|]. by left.
  - cbn. split; [by intros u Hu; apply Hne|].
    split; [done|]. split; [done|]. by left.
Qed.

(** X3.  The frame of [Schemas].  A call for a principal leaves the
    principal-index entries of all other principals as they are, and
    leaves the primary and the expiry index as they are under every
    decision identity other than the current one and the one the
    principal was indexed under; the templates and the base schemas are
    not touched; the engine receives at most one purge notice, and only
    for a live entry of the principal under another identity. *)
Theorem Schemas_frame (AccessFor : string -> AccessSet.t) (k : Clock)
    (user : string) (c : Collection) :
  let c' := (Schemas' AccessFor k user c).1 in
  (forall u, u ≠ user -> userCache c' !! u = userCache c !! u)
  ∧ (forall id, id ≠ AccessSet.ID (AccessFor user) ->
       (forall e, userCache c !! user ≠ Some (id, e)) ->
       cache c' !! id = cache c !! id
       ∧ userTimeoutCache c' !! id = userTimeoutCache c !! id)
  ∧ templates c' = templates c
  ∧ baseSchema c' = baseSchema c
  ∧ (purged c' = purged c
     ∨ exists old e, userCache c !! user = Some (old, e)
         ∧ (userGetAt k <= e)%Z
         ∧ old ≠ AccessSet.ID (AccessFor user)
         ∧ purged c' = purged c ++ [old]).
Proof.
  cbv zeta.
  destruct (removeOldRecords_frame (userGetAt k) (AccessFor user) user c)
    as (Hu & Hk & Ht & Hp).
  destruct (removeOldRecords_catalog (userGetAt k) (AccessFor user) user c)
    as [Hb _].
  destruct (Schemas_cases builtin_Schemas schemaError CacheTimeout
              AccessFor k user c)
    as [(cat & Hg & ->)|[(Hg & base & err' & Hcomp & ->)
                        |(Hg & base & cat & Hcomp & ->)]];
    cbn; (split; [|split; [|split; [done|split; [done|done]]]]).
  - done.
  - intros id Hne Hidx. rewrite Get_lookup_ne by done. by apply Hk.
  - done.
  - intros id Hne Hidx. rewrite Get_lookup_ne by done. by apply Hk.
  - intros u Hne. unfold expirecache.Add.
    rewrite lookup_insert_ne by done. by apply Hu.
  - intros id Hne Hidx. unfold expirecache.Add.
    rewrite !lookup_insert_ne by done.
    rewrite Get_lookup_ne by done. by apply Hk.
Qed.










End CacheFrame.

Lemma cached_catalog_served_until_expiry_witness :
  exists cat,
    Schemas APISchemas.EmptyAPISchemas acceptAll defaultCacheTimeout
      engineBefore (instant 5) "alice" aliceTicked = (aliceTicked, inr cat).
Proof.
  unfold aliceTicked.
  destruct (Schemas APISchemas.EmptyAPISchemas acceptAll defaultCacheTimeout
              engineBefore oneTick "alice" fresh)
    as [c1 [err|cat]] eqn:Hrun.
  - exfalso. vm_compute in Hrun. discriminate Hrun.
  - exists cat. cbn [fst].
    apply (cached_catalog_served_until_expiry APISchemas.EmptyAPISchemas
             acceptAll defaultCacheTimeout engineBefore engineBefore
             oneTick (instant 5) "alice" fresh c1 cat);
      [vm_compute; reflexivity | exact Hrun | reflexivity
      | unfold ticking; cbn; lia | unfold ticking; cbn; lia
      | vm_compute; discriminate].
Defined.

(** With the timeout -5 that [init] accepts, a record is dead as soon as
    it is cached: the next call at the same instant computes again. *)
Lemma expired_catalog_recomputed_witness :
  let c1 := (Schemas APISchemas.EmptyAPISchemas acceptAll (-5)
               engineBefore (instant 0) "alice" fresh).1 in
  (Schemas APISchemas.EmptyAPISchemas acceptAll (-5)
     engineBefore (instant 0) "alice" c1).2
  = (schemasForSubject APISchemas.EmptyAPISchemas acceptAll
       (baseSchema c1) (schemas c1) (engineBefore "alice")).2
  ∧ purged (Schemas APISchemas.EmptyAPISchemas acceptAll (-5)
              engineBefore (instant 0) "alice" c1).1 = purged c1.
Proof.
  cbv zeta.
  destruct (Schemas APISchemas.EmptyAPISchemas acceptAll (-5)
              engineBefore (instant 0) "alice" fresh)
    as [c1 [err|cat]] eqn:Hrun.
  - exfalso. vm_compute in Hrun. discriminate Hrun.
  - cbn [fst].
    apply (expired_catalog_recomputed APISchemas.EmptyAPISchemas
             acceptAll (-5) engineBefore engineBefore (instant 0)
             (instant 0) "alice" fresh c1 cat);
      [vm_compute; reflexivity | exact Hrun | reflexivity
      | vm_compute; reflexivity].
Defined.


(** ** Further properties of the filter *)

Section FilterMore.

Variable access : AccessSet.t.

Lemma surviving_kept (s : APISchema.t) (verb : string) :
  surviving access s verb = kept access s verb.
Proof. unfold surviving, kept. by rewrite trim_filter. Qed.

Lemma AnyVerb_verbAccessOf_false (s : APISchema.t) (verbs : list string) :
  accesscontrol.AnyVerb (verbAccessOf access s) verbs = false
  <-> forall v, v ∈ verbs -> v ∈ APISchema.Verbs s -> kept access s v = [].
Proof.
  unfold accesscontrol.AnyVerb. induction verbs as [|v verbs IH]; cbn.
  - split; [|done]. intros _ v Hv. by apply elem_of_nil in Hv.
  - rewrite orb_false_iff, IH, verbAccessOf_lookup, surviving_kept.
    split.
    + intros [Hv Hrest] v' [->|Hin]%elem_of_cons Hs; [|by apply Hrest].
      destruct (decide _) as [[_ Hne]|Hn].
      * destruct (kept access s v); [done|]. cbn in Hv. done.
      * destruct (decide (kept access s v = [])); [done|].
        exfalso. by apply Hn.
    + intros Hall. split.
      * destruct (decide _) as [[Hs Hne]|_]; [|done].
        exfalso. apply Hne, Hall; [apply elem_of_cons; by left|done].
      * intros v' Hin. apply Hall, elem_of_cons. by right.
Qed.

Lemma table_empty_iff (va : gmap string (list accesscontrol.Access))
    (block : gmap string bool) :
  tableResourceOps va block = [] ∧ tableCollectionOps va block = []
  <-> accesscontrol.AnyVerb va ["list"; "get"] = false
      ∧ accesscontrol.AnyVerb va ["delete"] = false
      ∧ accesscontrol.AnyVerb va ["update"] = false
      ∧ accesscontrol.AnyVerb va ["create"] = false.
Proof.
  unfold tableResourceOps, tableCollectionOps, operationTable.
  cbn [flat_map fst snd map].
  repeat (destruct (accesscontrol.AnyVerb va _)); cbn [app];
    split; intros H; repeat split; try done;
    destruct H as [? ?]; try done; intuition discriminate.
Qed.

Lemma filterSchema_plain (s : APISchema.t) :
  (~ (APISchema.Group s = "" ∧ APISchema.Resource s = "namespaces")
   ∨ exists verb, verb ∈ APISchema.Verbs s ∧ kept access s verb ≠ []) ->
  filterSchema access s = (s, derive s (verbAccessOf access s)).
Proof.
  intros H. rewrite filterSchema_eq.
  rewrite namespacesFallback_base, namespacesFallback_access.
  assert (Hno : ~ (verbAccessOf access s = ∅
                   ∧ APISchema.Group s = ""
                   ∧ APISchema.Resource s = "namespaces")).
  { intros (Hva & Hg). destruct H as [H|(verb & Hin & Hne)]; [by apply H|].
    pose proof (verbAccessOf_lookup access s verb) as Hl.
    rewrite Hva, lookup_empty, surviving_kept, decide_True in Hl by done.
    done. }
  rewrite !decide_False; [done|done|]. intros (? & ? & _). by apply Hno.
Qed.

Lemma noMethods_true (s : APISchema.t) :
  noMethods s = true
  <-> APISchema.ResourceMethods s = [] ∧ APISchema.CollectionMethods s = [].
Proof.
  unfold noMethods. rewrite andb_true_iff, !Nat.eqb_eq, !length_zero_iff_nil.
  tauto.
Qed.

(** X5.  The access map attached to a filtered schema is exact.  When
    the schema is not the core namespaces resource, or some verb of it
    has a grant that is kept, the loop body does not write to the shared
    schema, and the attached map has a key for a verb exactly when the
    schema supports the verb and a grant on it is kept; the value is
    then the list of all grants (namespaced schema) or of all
    cluster-wide grants (otherwise) in the order the decision set
    returned them. *)
Theorem access_map_exact (s : APISchema.t) :
  (~ (APISchema.Group s = "" ∧ APISchema.Resource s = "namespaces")
   ∨ exists verb, verb ∈ APISchema.Verbs s ∧ kept access s verb ≠ []) ->
  (filterSchema access s).1 = s
  ∧ exists va,
      APISchema.Access (filterSchema access s).2 = Some va
      ∧ forall verb,
          va !! verb
          = if decide (verb ∈ APISchema.Verbs s ∧ kept access s verb ≠ [])
            then Some (kept access s verb) else None.
Proof.
  intros H. rewrite (filterSchema_plain s H). cbn [fst snd].
  split; [done|]. exists (verbAccessOf access s).
  split; [apply derive_Access|]. intros verb.
  by rewrite verbAccessOf_lookup, surviving_kept.
Qed.

(** X6.  When a schema is dropped.  A schema other than the core
    namespaces resource yields a clone without any method, which the
    loop skips, exactly when it has no method of its own and no grant is
    kept on any of the verbs list, get, delete, update and create that
    it supports; grants on other verbs, such as watch, do not keep it. *)
Theorem dropped_iff (s : APISchema.t) :
  ~ (APISchema.Group s = "" ∧ APISchema.Resource s = "namespaces") ->
  noMethods (filterSchema access s).2 = true
  <-> APISchema.ResourceMethods s = []
      ∧ APISchema.CollectionMethods s = []
      ∧ forall verb, verb ∈ operationVerbs -> verb ∈ APISchema.Verbs s ->
          kept access s verb = [].
Proof.
  intros Hns. rewrite (filterSchema_plain s (or_introl Hns)). cbn [snd].
  rewrite noMethods_true, derive_ResourceMethods, derive_CollectionMethods.
  assert (Happ : forall l k : list string, l ++ k = [] <-> l = [] ∧ k = []).
  { intros l k. split; [apply app_eq_nil|]. by intros [-> ->]. }
  rewrite !Happ.
  pose proof (table_empty_iff (verbAccessOf access s)
                (APISchema.DisallowMethods s)) as Ht.
  rewrite !AnyVerb_verbAccessOf_false in Ht.
  unfold operationVerbs. split.
  - intros [[HR HtR] [HC HtC]]. split; [done|]. split; [done|].
    destruct Ht as [Ht _]. destruct (Ht (conj HtR HtC)) as (H1 & H2 & H3 & H4).
    intros verb Hin Hs.
    repeat (apply elem_of_cons in Hin as [->|Hin]);
      [apply H1|apply H1|apply H2|apply H3|apply H4|by apply elem_of_nil in Hin];
      try done; rewrite !elem_of_cons; auto.
  - intros (HR & HC & Hall).
    destruct Ht as [_ Ht]. destruct Ht as [HtR HtC].
    { repeat split; intros v Hin Hs; apply Hall; try done;
        repeat (apply elem_of_cons in Hin as [->|Hin]);
        try (by apply elem_of_nil in Hin);
        rewrite !elem_of_cons; auto 10. }
    done.
Qed.

End FilterMore.

Section CatalogMore.

Variable schemaError : APISchemas.t -> APISchema.t -> option error.
Variable access : AccessSet.t.

Lemma filterSchema_ID (s : APISchema.t) :
  APISchema.ID (filterSchema access s).2 = APISchema.ID s.
Proof.
  rewrite filterSchema_eq. cbn [snd].
  rewrite derive_ID, namespacesFallback_base. by destruct (decide _).
Qed.

(** The loop writes to the result only under identities of schemas of
    the shared catalog. *)
Lemma filterSchemas_lookup_other (schemas schemas' : list APISchema.t)
    (result result' : APISchemas.t) (id : string) :
  filterSchemas schemaError access schemas result = (schemas', inr result') ->
  id ∉ APISchema.ID <$> schemas ->
  APISchemas.Schemas result' !! id = APISchemas.Schemas result !! id.
Proof.
  revert schemas' result. induction schemas as [|s rest IH];
    intros schemas' result; cbn [filterSchemas].
  - by intros [= _ <-].
  - rewrite fmap_cons, not_elem_of_cons. intros Hrun [Hid Hrest].
    destruct (decide (APISchema.Resource s = "")) as [Hr|Hr].
    + destruct (AddSchema schemaError result s) as [err|r1] eqn:Hadd; [done|].
      destruct (filterSchemas schemaError access rest r1) as [rest' r] eqn:Hf.
      injection Hrun as _ ->. rewrite (IH _ _ Hf Hrest).
      rewrite (AddSchema_lookup _ _ _ _ id Hadd). by rewrite decide_False.
    + pose proof (filterSchema_ID s) as HID.
      destruct (filterSchema access s) as [s' clone]. cbn [snd] in HID.
      destruct (noMethods clone).
      * destruct (filterSchemas schemaError access rest result)
          as [rest' r] eqn:Hf.
        injection Hrun as _ ->. by apply (IH _ _ Hf).
      * destruct (AddSchema schemaError result clone) as [err|r1] eqn:Hadd;
          [done|].
        destruct (filterSchemas schemaError access rest r1)
          as [rest' r] eqn:Hf.
        injection Hrun as _ ->. rewrite (IH _ _ Hf Hrest).
        rewrite (AddSchema_lookup _ _ _ _ id Hadd).
        rewrite decide_False; [done|congruence].
Qed.

(** With distinct identities in the shared catalog, the entry of the
    result under the identity of one of its schemas. *)
Lemma filterSchemas_lookup (schemas schemas' : list APISchema.t)
    (result result' : APISchemas.t) (s : APISchema.t) :
  filterSchemas schemaError access schemas result = (schemas', inr result') ->
  NoDup (APISchema.ID <$> schemas) ->
  s ∈ schemas ->
  APISchemas.Schemas result' !! APISchema.ID s
  = if decide (APISchema.Resource s = "") then Some s
    else if noMethods (filterSchema access s).2
         then APISchemas.Schemas result !! APISchema.ID s
         else Some (filterSchema access s).2.
Proof.
  revert schemas' result. induction schemas as [|s0 rest IH];
    intros schemas' result Hrun Hnd Hin; [by apply elem_of_nil in Hin|].
  rewrite fmap_cons in Hnd. apply NoDup_cons in Hnd as [Hfresh Hnd].
  cbn [filterSchemas] in Hrun.
  assert (Hhead : s = s0 ∨ (s ∈ rest ∧ APISchema.ID s0 ≠ APISchema.ID s)).
  { apply elem_of_cons in Hin as [->|Hin]; [by left|].
    right. split; [done|]. intros Heq. apply Hfresh. rewrite Heq.
    by apply list_elem_of_fmap_2. }
  destruct (decide (APISchema.Resource s0 = "")) as [Hr|Hr].
  - destruct (AddSchema schemaError result s0) as [err|r1] eqn:Hadd; [done|].
    destruct (filterSchemas schemaError access rest r1) as [rest' r] eqn:Hf.
    injection Hrun as _ ->.
    destruct Hhead as [->|[Hin' Hne]].
    + rewrite (filterSchemas_lookup_other _ _ _ _ _ Hf Hfresh).
      rewrite (AddSchema_lookup _ _ _ _ _ Hadd).
      by rewrite !decide_True.
    + rewrite (IH _ _ Hf Hnd Hin').
      rewrite (AddSchema_lookup _ _ _ _ (APISchema.ID s) Hadd).
      by rewrite (decide_False _ _ Hne).
  - pose proof (filterSchema_ID s0) as HID.
    destruct (filterSchema access s0) as [s' clone] eqn:Hfs.
    cbn [snd] in HID.
    destruct (noMethods clone) eqn:Hnm.
    + destruct (filterSchemas schemaError access rest result)
        as [rest' r] eqn:Hf.
      injection Hrun as _ ->.
      destruct Hhead as [->|[Hin' Hne]].
      * rewrite (filterSchemas_lookup_other _ _ _ _ _ Hf Hfresh).
        rewrite Hfs. cbn [snd]. by rewrite decide_False, Hnm.
      * by rewrite (IH _ _ Hf Hnd Hin').
    + destruct (AddSchema schemaError result clone) as [err|r1] eqn:Hadd;
        [done|].
      destruct (filterSchemas schemaError access rest r1)
        as [rest' r] eqn:Hf.
      injection Hrun as _ ->.
      destruct Hhead as [->|[Hin' Hne]].
      * rewrite (filterSchemas_lookup_other _ _ _ _ _ Hf Hfresh).
        rewrite (AddSchema_lookup _ _ _ _ _ Hadd).
        rewrite Hfs. cbn [snd]. by rewrite decide_True, decide_False, Hnm.
      * rewrite (IH _ _ Hf Hnd Hin').
        rewrite (AddSchema_lookup _ _ _ _ (APISchema.ID s) Hadd).
        rewrite HID. by rewrite (decide_False _ _ Hne).
Qed.

(** A catalog built by [AddSchemas] holds, under an identity that was
    free, only schemas of that identity taken from the catalog added. *)
Lemma addSchemaList_keyed (a a' : APISchemas.t)
    (l : list (string * APISchema.t)) (id : string) (x : APISchema.t) :
  addSchemaList schemaError a l = inr a' ->
  APISchemas.Schemas a' !! id = Some x ->
  APISchemas.Schemas a !! id = Some x
  ∨ (APISchema.ID x = id ∧ exists k, (k, x) ∈ l).
Proof.
  revert a. induction l as [|[k schema] l IH]; intros a; cbn [addSchemaList].
  - intros [= <-]. auto.
  - destruct (AddSchema schemaError a schema) as [err|a1] eqn:Hadd; [done|].
    intros Hrest Hx. destruct (IH _ Hrest Hx) as [Hold|[Hid [k' Hin]]].
    + rewrite (AddSchema_lookup _ _ _ _ id Hadd) in Hold.
      destruct (decide _) as [Heq|]; [|by left].
      right. injection Hold as <-. split; [done|].
      exists k. apply elem_of_cons. by left.
    + right. split; [done|]. exists k'. apply elem_of_cons. by right.
Qed.

Variables (builtin_Schemas baseCatalog : APISchemas.t).

(** X7.  The entries of the computed catalog, by identity.  When
    [schemasForSubject] succeeds on a shared catalog whose schemas have
    distinct identities, each of them is found under its identity as
    follows: a schema without a resource as it is; a schema with a
    resource whose clone has a method as that clone; and a schema whose
    clone has no method is absent, unless a built-in schema or a schema
    of [c.baseSchema] has the same identity. *)
Theorem catalog_entries_by_identity (schemas schemas' : list APISchema.t)
    (result : APISchemas.t) (s : APISchema.t) :
  schemasForSubject builtin_Schemas schemaError baseCatalog schemas access
  = (schemas', inr result) ->
  NoDup (APISchema.ID <$> schemas) ->
  s ∈ schemas ->
  (APISchema.Resource s = "" ->
   APISchemas.Schemas result !! APISchema.ID s = Some s)
  ∧ (APISchema.Resource s ≠ "" ->
     noMethods (filterSchema access s).2 = false ->
     APISchemas.Schemas result !! APISchema.ID s
     = Some (filterSchema access s).2)
  ∧ (APISchema.Resource s ≠ "" ->
     noMethods (filterSchema access s).2 = true ->
     (forall k x, APISchemas.Schemas builtin_Schemas !! k = Some x
                  ∨ APISchemas.Schemas baseCatalog !! k = Some x ->
        APISchema.ID x ≠ APISchema.ID s) ->
     APISchemas.Schemas result !! APISchema.ID s = None).
Proof.
  unfold schemasForSubject, newSchemas, AddSchemas.
  destruct (addSchemaList schemaError APISchemas.EmptyAPISchemas _)
    as [err|r0] eqn:H0; [done|].
  destruct (addSchemaList schemaError r0 _) as [err|r1] eqn:H1; [done|].
  destruct (filterSchemas schemaError access schemas r1)
    as [rest [err|r2]] eqn:H2; [done|].
  intros [= _ <-] Hnd Hin. cbn [APISchemas.Schemas].
  rewrite (filterSchemas_lookup _ _ _ _ _ H2 Hnd Hin).
  split; [|split].
  - intros Hr. by rewrite decide_True.
  - intros Hr Hnm. by rewrite decide_False, Hnm.
  - intros Hr Hnm Hfree. rewrite decide_False, Hnm by done.
    destruct (APISchemas.Schemas r1 !! APISchema.ID s) as [x|] eqn:Hx;
      [|done].
    exfalso.
    destruct (addSchemaList_keyed _ _ _ _ _ H1 Hx) as [Hx0|[Hid [k Hk]]].
    + destruct (addSchemaList_keyed _ _ _ _ _ H0 Hx0) as [He|[Hid [k Hk]]].
      * cbn in He. by rewrite lookup_empty in He.
      * apply elem_of_map_to_list in Hk. by apply (Hfree k x); [left|].
    + apply elem_of_map_to_list in Hk. by apply (Hfree k x); [right|].
Qed.

(** X8.  The shared catalog is left as it is by [schemasForSubject],
    whether it succeeds or fails, when the decision set has a visible
    namespace or the catalog has no core namespaces schema. *)
Theorem shared_catalog_unchanged (schemas : list APISchema.t) :
  (AccessSet.Namespaces access ≠ []
   ∨ forall s, s ∈ schemas ->
       ~ (APISchema.Group s = "" ∧ APISchema.Resource s = "namespaces")) ->
  (schemasForSubject builtin_Schemas schemaError baseCatalog schemas
     access).1 = schemas.
Proof.
  intros H.
  pose proof (schemasForSubject_frame schemaError access builtin_Schemas
                baseCatalog schemas) as Hf.
  revert H Hf.
  generalize (schemasForSubject builtin_Schemas schemaError baseCatalog
                schemas access).1.
  intros after H Hf. induction Hf as [|s s' l l' Hcell _ IH]; [done|].
  rewrite IH.
  - destruct Hcell as [->|(_ & (_ & Hns & Hnil) & _)]; [done|].
    exfalso. destruct H as [H|H]; [done|].
    apply (H s); [apply elem_of_cons; by left|done].
  - destruct H as [H|H]; [by left|]. right. intros s0 Hin.
    apply H, elem_of_cons. by right.
Qed.

End CatalogMore.

(** ** Further properties of the templates *)

Lemma foldl_formatterStep_chained (l : list (option Template.t))
    (cur : option types.Formatter) :
  chainedIn (foldl formatterStep cur l)
  = concat (rev (templateChained <$> l)) ++ chainedIn cur.
Proof.
  revert cur. induction l as [|t l IH]; intros cur; [done|].
  cbn [foldl]. rewrite IH, fmap_cons. cbn [rev].
  rewrite concat_app. cbn [concat]. rewrite app_nil_r, <- app_assoc.
  f_equal. unfold templateChained, formatterStep.
  destruct t as [t|]; [|done]. cbn.
  destruct cur as [f|], (Template.Formatter t) as [tf|]; cbn;
    by rewrite ?app_nil_r.
Qed.

Lemma foldl_storeStep_preset (d : option types.Store) (st : types.Store)
    (l : list (option Template.t)) :
  foldl (storeStep d) (Some st) l = Some st.
Proof. induction l as [|[t|] l IH]; done. Qed.

(** X9.  The order of the formatter chain.  When the hooks leave the
    formatter and the store alone, the formatter of the schema after
    [applyTemplates] chains the formatters of the visited templates
    with the last visited one outermost and the schema's own formatter
    innermost; and a store the schema already had is kept, whatever the
    templates supply. *)
Theorem formatter_chain_order (c : Collection) (schema schema' : APISchema.t)
    (invoked : list (APISchema.t -> APISchema.t)) :
  hooksKeep (visited c schema) ->
  applyTemplates c schema = Some (schema', invoked) ->
  chainedIn (APISchema.Formatter schema')
  = concat (rev (templateChained <$> visited c schema))
    ++ chainedIn (APISchema.Formatter schema)
  ∧ (forall st, APISchema.Store schema = Some st ->
       APISchema.Store schema' = Some st).
Proof.
  intros Hk. rewrite applyTemplates_visited. intros Happ.
  destruct (applyTemplateList_fields c _ _ _ _ _ Hk Happ) as [-> ->].
  split; [apply foldl_formatterStep_chained|].
  intros st ->. apply foldl_storeStep_preset.
Qed.

Lemma applyTemplateList_None (c : Collection) (l : list (option Template.t))
    st :
  applyTemplateList c st l = None ->
  defaultStore c = None
  ∧ exists t, Some t ∈ l ∧ is_Some (Template.StoreFactory t).
Proof.
  revert st. induction l as [|t l IH]; intros st; cbn [applyTemplateList];
    [done|].
  destruct (applyTemplate c st t) as [st'|] eqn:Hone; cbn.
  - intros Hrest. destruct (IH _ Hrest) as [Hd (t' & Hin & Hf)].
    split; [done|]. exists t'. split; [|done]. apply elem_of_cons. by right.
  - intros _. destruct t as [t|]; [|done]. destruct st as [schema invoked].
    unfold applyTemplate in Hone.
    destruct (APISchema.Store _) in Hone;
      [by destruct (Template.Customize t)|].
    destruct (Template.StoreFactory t) as [factory|] eqn:Hfac;
      [|by destruct (Template.Customize t)].
    destruct (defaultStore c) as [d|] eqn:Hd;
      [by destruct (Template.Customize t)|].
    split; [done|]. exists t. split; [apply elem_of_cons; by left|].
    by rewrite Hfac.
Qed.

(** X10.  [applyTemplates] panics only through [defaultStore]: when it
    does not return, the first wildcard template is a nil pointer and
    some visited template has a store factory. *)
Theorem applyTemplates_panic_only_nil_default (c : Collection)
    (schema : APISchema.t) :
  applyTemplates c schema = None ->
  (exists rest, templates c !! "" = Some (None :: rest))
  ∧ exists t, Some t ∈ visited c schema ∧ is_Some (Template.StoreFactory t).
Proof.
  rewrite applyTemplates_visited. intros Hnone.
  destruct (applyTemplateList_None _ _ _ Hnone) as [Hd Ht].
  split; [|done]. unfold defaultStore in Hd.
  destruct (templates c !! "") as [[|[t|] rest]|]; try done.
  by exists rest.
Qed.

Lemma visited_templated :
  visited templated pods
  = [ Some {| Template.Customize := Some markHooked;
              Template.Formatter := None;
              Template.Store := None;
              Template.StoreFactory := None |};
      Some {| Template.Customize := None;
              Template.Formatter := Some (types.FormatterFunc "links");
              Template.Store := Some (types.StoreHandle "proxy");
              Template.StoreFactory := None |} ].
Proof. vm_compute. reflexivity. Qed.

Lemma hooksKeep_templated : hooksKeep (visited templated pods).
Proof.
  rewrite visited_templated. intros t hook Hin Hc x.
  apply elem_of_cons in Hin as [[= ->]|Hin].
  - injection Hc as <-. done.
  - apply elem_of_cons in Hin as [[= ->]|Hin]; [discriminate Hc|].
    by apply elem_of_nil in Hin.
Qed.

Lemma formatter_chain_order_witness :
  exists final invoked,
    applyTemplates templated pods = Some (final, invoked)
    ∧ chainedIn (APISchema.Formatter final) = ["links"].
Proof.
  destruct (applyTemplates templated pods) as [[final invoked]|] eqn:Happ.
  - exists final, invoked. split; [reflexivity|].
    destruct (formatter_chain_order templated pods final invoked
                hooksKeep_templated Happ) as [Hchain _].
    rewrite Hchain, visited_templated. reflexivity.
  - exfalso. vm_compute in Happ. discriminate Happ.
Defined.

Lemma applyTemplates_panic_only_nil_default_witness :
  applyTemplates nilDefault pods = None
  ∧ (exists rest, templates nilDefault !! "" = Some (None :: rest))
  ∧ exists t, Some t ∈ visited nilDefault pods
              ∧ is_Some (Template.StoreFactory t).
Proof.
  split; [vm_compute; reflexivity|].
  apply (applyTemplates_panic_only_nil_default nilDefault pods).
  vm_compute. reflexivity.
Defined.

(** ** Further properties of the cache timeout *)

Lemma wrap64_range (z : Z) : (minInt64 <= wrap64 z <= maxInt64)%Z.
Proof.
  unfold wrap64, minInt64, maxInt64.
  pose proof (Z.mod_pos_bound (z + 2 ^ 63) (2 ^ 64)). lia.
Qed.

(** X11.  The time-to-live in hours.  The timeout [init] leaves is an
    [int], and the time-to-live [CacheTimeout * time.Hour] computed from
    it (or from any timeout) is that number of hours exactly when the
    timeout lies between -2562047 and 2562047; beyond, the product
    wraps around. *)
Theorem ttl_in_hours_iff (cacheTimeout : string) (n : Z) :
  (minInt64 <= (init cacheTimeout).1 <= maxInt64)%Z
  ∧ (minInt64 <= ttl n <= maxInt64)%Z
  ∧ (ttl n = (n * Hour)%Z <-> (-2562047 <= n <= 2562047)%Z).
Proof.
  split; [|split; [apply wrap64_range|]].
  - unfold init. destruct (decide _); [|by vm_compute].
    destruct (Atoi cacheTimeout) as [err|num] eqn:Ha; [by vm_compute|].
    by apply (Atoi_range cacheTimeout).
  - split; [|apply ttl_hours].
    intros Heq. pose proof (wrap64_range (n * Hour)) as Hr.
    unfold ttl in Heq. rewrite Heq in Hr.
    unfold minInt64, maxInt64, Hour in Hr. lia.
Qed.

Section Served.

Variable builtin_Schemas : APISchemas.t.
Variable schemaError : APISchemas.t -> APISchema.t -> option error.
Variable CacheTimeout : Z.

(** X12.  The catalog [Schemas] returns is one for the current decision
    identity: either the live record the primary index held under that
    identity before the call, or the catalog the computation just
    returned for the current decision set, which carries that set. *)
Theorem served_catalog_is_current (AccessFor : string -> AccessSet.t)
    (k : Clock) (user : string) (c c' : Collection) (cat : APISchemas.t) :
  Schemas builtin_Schemas schemaError CacheTimeout AccessFor k user c
  = (c', inr cat) ->
  (exists e, cache c !! AccessSet.ID (AccessFor user) = Some (cat, e)
             ∧ (cacheGetAt k <= e)%Z)
  ∨ (exists base,
       schemasForSubject builtin_Schemas schemaError (baseSchema c)
         (schemas c) (AccessFor user) = (base, inr cat)
       ∧ APISchemas.Attributes cat = Some (AccessFor user)).
Proof.
  destruct (removeOldRecords_subseteq (userGetAt k) (AccessFor user) user c)
    as (Hsub & _).
  destruct (Schemas_cases builtin_Schemas schemaError CacheTimeout
              AccessFor k user c)
    as [(cat' & Hg & ->)|[(Hg & base & err' & Hcomp & ->)
                         |(Hg & base & cat' & Hcomp & ->)]].
  - intros [= _ <-]. left.
    apply Get_Some in Hg as [_ (e & Hc & He)].
    exists e. split; [|done]. by eapply lookup_weaken.
  - done.
  - intros [= _ <-]. right. exists base. split; [done|].
    by destruct (schemasForSubject_entries _ _ _ _ _ _ _ Hcomp).
Qed.

End Served.

Section FallbackMethods.

Variable access : AccessSet.t.

(** X13.  The methods of the core namespaces schema when no grant on it
    is kept.  With no visible namespace the clone gains a plain
    collection-level GET, which is not passed through the block-list,
    and no resource-level operation; with a visible namespace the shared
    schema is not written and the clone gains the resource-level and
    the collection-level GET derived from the synthesized grants, both
    passed through the block-list. *)
Theorem namespaces_fallback_methods (s : APISchema.t) :
  APISchema.Group s = "" ->
  APISchema.Resource s = "namespaces" ->
  (forall verb, verb ∈ APISchema.Verbs s -> kept access s verb = []) ->
  let clone := (filterSchema access s).2 in
  let block := APISchema.DisallowMethods s in
  (AccessSet.Namespaces access = [] ->
   APISchema.ResourceMethods clone = APISchema.ResourceMethods s
   ∧ APISchema.CollectionMethods clone
     = APISchema.CollectionMethods s ++ [MethodGet])
  ∧ (AccessSet.Namespaces access ≠ [] ->
     (filterSchema access s).1 = s
     ∧ APISchema.ResourceMethods clone
       = APISchema.ResourceMethods s ++ [tag block MethodGet]
     ∧ APISchema.CollectionMethods clone
       = APISchema.CollectionMethods s ++ [tag block MethodGet]).
Proof.
  intros Hg Hr Hnone clone block.
  assert (Hva : verbAccessOf access s = ∅).
  { apply verbAccessOf_empty. intros v Hv.
    rewrite surviving_kept. by apply Hnone. }
  set (grants := namespaceAccessList access).
  assert (Hacc : (namespacesFallback access s (verbAccessOf access s)).2
                 = <["watch" := grants]> (<["get" := grants]> ∅)).
  { by rewrite namespacesFallback_access, decide_True. }
  assert (Hbase : (filterSchema access s).1
                  = if decide (AccessSet.Namespaces access = [])
                    then APISchema.with_CollectionMethods s
                           (APISchema.CollectionMethods s ++ [MethodGet])
                    else s).
  { rewrite filterSchema_eq. cbn [fst]. rewrite namespacesFallback_base.
    destruct (decide (AccessSet.Namespaces access = [])) as [Hn|Hn].
    - by rewrite decide_True.
    - rewrite decide_False; [done|]. by intros (_ & _ & ?). }
  assert (Hclone : clone
            = derive (filterSchema access s).1
                (<["watch" := grants]> (<["get" := grants]> ∅))).
  { unfold clone. rewrite filterSchema_eq. cbn [fst snd]. by rewrite Hacc. }
  assert (Hany : forall verbs,
             accesscontrol.AnyVerb
               (<["watch" := grants]> (<["get" := grants]> ∅)) verbs
             = existsb (fun v => bool_decide (v = "get" ∨ v = "watch")
                                 && negb (Nat.eqb (length grants) 0)) verbs).
  { intros verbs. unfold accesscontrol.AnyVerb.
    induction verbs as [|v verbs IH]; cbn [existsb]; [done|].
    rewrite IH. f_equal. destruct (decide (v = "watch")) as [->|Hw].
    - by rewrite lookup_insert_eq.
    - rewrite lookup_insert_ne by done.
      destruct (decide (v = "get")) as [->|Hget].
      + by rewrite lookup_insert_eq.
      + rewrite lookup_insert_ne, lookup_empty by done.
        rewrite bool_decide_false; [done|]. by intros [?|?]. }
  assert (Hlen : length grants = length (AccessSet.Namespaces access)).
  { unfold grants. rewrite namespaceAccessList_map. apply length_map. }
  rewrite Hclone, derive_ResourceMethods, derive_CollectionMethods, Hbase.
  unfold tableResourceOps, tableCollectionOps, operationTable.
  cbn [flat_map fst snd map]. rewrite !Hany, Hlen. cbn [existsb].
  split.
  - intros Hn. rewrite Hn, decide_True by done. cbn.
    by rewrite !app_nil_r.
  - intros Hn. rewrite decide_False by done.
    destruct (AccessSet.Namespaces access) as [|ns l]; [done|]. cbn.
    by rewrite !app_nil_r.
Qed.

End FallbackMethods.

(** ** Examples of the further properties *)

Lemma access_map_exact_witness :
  (filterSchema teamAccess clusterroles).1 = clusterroles
  ∧ exists va,
      APISchema.Access (filterSchema teamAccess clusterroles).2 = Some va
      ∧ forall verb,
          va !! verb
          = if decide (verb ∈ APISchema.Verbs clusterroles
                       ∧ kept teamAccess clusterroles verb ≠ [])
            then Some (kept teamAccess clusterroles verb) else None.
Proof.
  apply (access_map_exact teamAccess clusterroles).
  left. intros [Hgroup _]. discriminate Hgroup.
Defined.

(** Configmaps with grants on watch only: the schema is dropped. *)
Lemma dropped_iff_witness :
  kept watchOnly configmaps "watch" ≠ []
  ∧ noMethods (filterSchema watchOnly configmaps).2 = true.
Proof.
  split; [vm_compute; discriminate|].
  apply (dropped_iff watchOnly configmaps).
  - intros [_ Hresource]. discriminate Hresource.
  - split; [reflexivity|]. split; [reflexivity|].
    intros verb Hin _. unfold operationVerbs in Hin.
    repeat (apply elem_of_cons in Hin as [->|Hin]);
      try reflexivity. by apply elem_of_nil in Hin.
Defined.

Lemma catalog_entries_by_identity_witness :
  exists after result,
    schemasForSubject APISchemas.EmptyAPISchemas acceptAll
      APISchemas.EmptyAPISchemas [apiRoot; secrets; clusterroles] listOnly
    = (after, inr result)
    ∧ APISchemas.Schemas result !! "secret"
      = Some (filterSchema listOnly secrets).2.
Proof.
  destruct (schemasForSubject APISchemas.EmptyAPISchemas acceptAll
              APISchemas.EmptyAPISchemas [apiRoot; secrets; clusterroles]
              listOnly) as [after [err|result]] eqn:Hrun.
  - exfalso. vm_compute in Hrun. discriminate Hrun.
  - exists after, result. split; [reflexivity|].
    destruct (catalog_entries_by_identity acceptAll listOnly
                APISchemas.EmptyAPISchemas APISchemas.EmptyAPISchemas
                [apiRoot; secrets; clusterroles] after result secrets Hrun)
      as (_ & Hkept & _).
    + refine (bool_decide_unpack _ _). vm_compute. exact I.
    + apply elem_of_cons. right. apply elem_of_cons. by left.
    + apply Hkept; [discriminate|vm_compute; reflexivity].
Defined.

Lemma shared_catalog_unchanged_witness :
  (schemasForSubject APISchemas.EmptyAPISchemas acceptAll
     APISchemas.EmptyAPISchemas [namespaces; pods] twoNamespaces).1
  = [namespaces; pods].
Proof.
  apply (shared_catalog_unchanged acceptAll twoNamespaces
           APISchemas.EmptyAPISchemas APISchemas.EmptyAPISchemas
           [namespaces; pods]).
  left. discriminate.
Defined.

Lemma served_catalog_is_current_witness :
  exists c' cat,
    Schemas APISchemas.EmptyAPISchemas acceptAll defaultCacheTimeout
      engineAfter (instant 2) "alice" bobServed = (c', inr cat)
    ∧ ((exists e, cache bobServed !! "d2" = Some (cat, e) ∧ (2 <= e)%Z)
       ∨ (exists base,
            schemasForSubject APISchemas.EmptyAPISchemas acceptAll
              (baseSchema bobServed) (schemas bobServed)
              (engineAfter "alice") = (base, inr cat)
            ∧ APISchemas.Attributes cat = Some (engineAfter "alice"))).
Proof.
  destruct (Schemas APISchemas.EmptyAPISchemas acceptAll defaultCacheTimeout
              engineAfter (instant 2) "alice" bobServed) as [c' [err|cat]] eqn:Hrun.
  - exfalso. vm_compute in Hrun. discriminate Hrun.
  - exists c', cat. split; [reflexivity|].
    exact (served_catalog_is_current APISchemas.EmptyAPISchemas acceptAll
             defaultCacheTimeout engineAfter (instant 2) "alice" bobServed c' cat
             Hrun).
Defined.

(** With GET in the block-list: a plain GET when no namespace is
    visible, the tagged one when two are. *)
Lemma namespaces_fallback_methods_witness :
  APISchema.CollectionMethods (filterSchema noGrants namespacesBlocked).2
  = ["GET"]
  ∧ APISchema.CollectionMethods
      (filterSchema twoNamespaces namespacesBlocked).2
    = ["blocked-GET"].
Proof.
  destruct (namespaces_fallback_methods noGrants namespacesBlocked)
    as [Hplain _]; [reflexivity|reflexivity|by intros verb _|].
  destruct (namespaces_fallback_methods twoNamespaces namespacesBlocked)
    as [_ Htagged]; [reflexivity|reflexivity|by intros verb _|].
  split.
  - by destruct Hplain as [_ ->].
  - destruct Htagged as (_ & _ & ->); [discriminate|reflexivity].
Defined.
